(** * BB84 key-distribution simulator ([final1.py]): model and properties

    The module has one function, [run_qkd_protocol], and a short driver.
    The function draws every random value from numpy's process-wide
    generator; the model makes those draws explicit as the operations of
    a small effect monad, interpreted against an arbitrary random source.

    Numbers.  numpy [int64] bit arrays are [list Z]; boolean masks are
    [list bool]; lengths and indices are [nat].  The float values
    (QBER, thresholds, the draws of [np.random.rand]) are modelled by the
    rationals they denote: the quotient [errors / CHECK_SIZE] is the exact
    fraction, and [0.11] is 11/100.  With the module's 1000 photons the
    check sample has at most 250 bits, so a fraction other than 11/100 is
    at least 1/25000 away from it and the rounding of the floats cannot
    change the outcome of [qber > SECURITY_THRESHOLD].

    The text of the justification is another matter: it prints the double
    [qber * 100], and the two roundings (of the quotient and of the
    product) decide the last digit when the exact percentage is halfway
    between two hundredths: 49 errors in 160 bits print as [30.63], the
    exact 30.625 would print as [30.62].  There the model rounds as the
    code does, with [float64], the rounding of a rational to the nearest
    binary64 number. *)

From Stdlib Require Import QArith Floats.
From stdpp Require Import base decidable option list numbers strings pretty.

Close Scope Q_scope.
Open Scope Z_scope.

(** ** Exceptions and the effect monad *)

(** Python exceptions the numpy operations of the function can raise. *)
Inductive exn : Type :=
| ValueError
| IndexError.

(** A program is a finite tree of requests: the four numpy draws used by
    [run_qkd_protocol], plus [random.choice] and [print] used by the
    driver. *)
Inductive py (A : Type) : Type :=
| Ret (a : A)
| Raise (e : exn)
| RandintVec (n : nat) (k : list Z → py A)    (* np.random.randint(0, 2, n) *)
| RandVec (n : nat) (k : list Q → py A)       (* np.random.rand(n) *)
| Randint (k : Z → py A)                      (* np.random.randint(0, 2) *)
| Choice (a size : nat) (k : list nat → py A) (* np.random.choice(a, size, replace=False) *)
| PyChoice (k : bool → py A)                  (* random.choice([True, False]) *)
| Print (s : string) (k : py A).              (* print(s) *)

Arguments Ret {A} a.
Arguments Raise {A} e.
Arguments RandintVec {A} n k.
Arguments RandVec {A} n k.
Arguments Randint {A} k.
Arguments Choice {A} a size k.
Arguments PyChoice {A} k.
Arguments Print {A} s k.

Fixpoint py_bind {A B : Type} (m : py A) (f : A → py B) : py B :=
  match m with
  | Ret a => f a
  | Raise e => Raise e
  | RandintVec n k => RandintVec n (λ v, py_bind (k v) f)
  | RandVec n k => RandVec n (λ v, py_bind (k v) f)
  | Randint k => Randint (λ v, py_bind (k v) f)
  | Choice a size k => Choice a size (λ v, py_bind (k v) f)
  | PyChoice k => PyChoice (λ v, py_bind (k v) f)
  | Print s k => Print s (py_bind k f)
  end.

#[global] Instance py_ret : MRet py := λ A a, Ret a.
#[global] Instance py_mbind : MBind py := λ A B f m, py_bind m f.
#[global] Instance py_fmap : FMap py := λ A B f m, py_bind m (λ a, Ret (f a)).

(** ** Random sources *)

(** One answer of the random source, as seen by the program. *)
Inductive draw : Type :=
| DrawRandintVec (n : nat) (v : list Z)
| DrawRandVec (n : nat) (v : list Q)
| DrawRandint (v : Z)
| DrawChoice (a size : nat) (v : list nat)
| DrawPyChoice (b : bool).

(** A deterministic random source: a generator state and one transition
    per kind of draw. *)
Record RandomSource : Type := {
  rng : Type;
  src_randint_vec : nat → rng → list Z * rng;
  src_rand_vec : nat → rng → list Q * rng;
  src_randint : rng → Z * rng;
  src_choice : nat → nat → rng → list nat * rng;
  src_py_choice : rng → bool * rng;
}.

Definition is_bit (b : Z) : Prop := b = 0 ∨ b = 1.

(** What numpy guarantees about the answers, whatever their values. *)
Record Lawful (R : RandomSource) : Prop := {
  randint_vec_length : ∀ n g, length (src_randint_vec R n g).1 = n;
  randint_vec_bits : ∀ n g, Forall is_bit (src_randint_vec R n g).1;
  rand_vec_length : ∀ n g, length (src_rand_vec R n g).1 = n;
  rand_vec_range : ∀ n g, Forall (λ x, (0 <= x)%Q ∧ (x < 1)%Q) (src_rand_vec R n g).1;
  randint_bit : ∀ g, is_bit (src_randint R g).1;
  choice_length : ∀ a size g, (size ≤ a)%nat → length (src_choice R a size g).1 = size;
  choice_NoDup : ∀ a size g, (size ≤ a)%nat → NoDup (src_choice R a size g).1;
  choice_range : ∀ a size g, (size ≤ a)%nat →
    Forall (λ i, (i < a)%nat) (src_choice R a size g).1;
}.

(** What running a program against a source produces. *)
Record outcome (R : RandomSource) (A : Type) : Type := {
  result : exn + A;
  rng_after : rng R;
  draws : list draw;
  stdout : list string;
}.

Arguments result {R A} o.
Arguments rng_after {R A} o.
Arguments draws {R A} o.
Arguments stdout {R A} o.

Definition drew {R A} (d : draw) (o : outcome R A) : outcome R A :=
  {| result := result o; rng_after := rng_after o;
     draws := d :: draws o; stdout := stdout o |}.

Definition printed {R A} (s : string) (o : outcome R A) : outcome R A :=
  {| result := result o; rng_after := rng_after o;
     draws := draws o; stdout := s :: stdout o |}.

Fixpoint exec (R : RandomSource) {A : Type} (p : py A) (g : rng R) : outcome R A :=
  match p with
  | Ret a => {| result := inr a; rng_after := g; draws := []; stdout := [] |}
  | Raise e => {| result := inl e; rng_after := g; draws := []; stdout := [] |}
  | RandintVec n k =>
      let '(v, g') := src_randint_vec R n g in drew (DrawRandintVec n v) (exec R (k v) g')
  | RandVec n k =>
      let '(v, g') := src_rand_vec R n g in drew (DrawRandVec n v) (exec R (k v) g')
  | Randint k =>
      let '(v, g') := src_randint R g in drew (DrawRandint v) (exec R (k v) g')
  | Choice a size k =>
      let '(v, g') := src_choice R a size g in drew (DrawChoice a size v) (exec R (k v) g')
  | PyChoice k =>
      let '(v, g') := src_py_choice R g in drew (DrawPyChoice v) (exec R (k v) g')
  | Print s k => printed s (exec R k g)
  end.

(** ** numpy operations *)

(** [np.random.randint(0, 2, N)]: a negative size is a [ValueError]. *)
Definition np_random_randint_vec (N : Z) : py (list Z) :=
  if N <? 0 then Raise ValueError else RandintVec (Z.to_nat N) Ret.

(** [np.random.rand(N)]. *)
Definition np_random_rand (N : Z) : py (list Q) :=
  if N <? 0 then Raise ValueError else RandVec (Z.to_nat N) Ret.

(** [np.random.randint(0, 2)]. *)
Definition np_random_randint : py Z := Randint Ret.

(** [np.random.choice(a, size, replace=False)]: a sample larger than the
    population is a [ValueError]. *)
Definition np_random_choice (a size : nat) : py (list nat) :=
  if (a <? size)%nat then Raise ValueError else Choice a size Ret.

(** [np.zeros(N, dtype=int)]. *)
Definition np_zeros (N : Z) : list Z := replicate (Z.to_nat N) 0.

(** [a[i]] for an integer index. *)
Definition getitem {A} (a : list A) (i : nat) : py A :=
  match a !! i with
  | Some x => Ret x
  | None => Raise IndexError
  end.

(** [a[i] = x] for an integer index. *)
Definition setitem {A} (a : list A) (i : nat) (x : A) : py (list A) :=
  if (i <? length a)%nat then Ret (<[i:=x]> a) else Raise IndexError.

(** The elements of [a] where [mask] is true, in order. *)
Fixpoint select {A} (a : list A) (mask : list bool) : list A :=
  match a, mask with
  | x :: a', m :: mask' => if m then x :: select a' mask' else select a' mask'
  | _, _ => []
  end.

(** [a[mask]] for a boolean mask: the shapes must agree. *)
Definition getitem_mask {A} (a : list A) (mask : list bool) : py (list A) :=
  if (length mask =? length a)%nat then Ret (select a mask) else Raise IndexError.

(** Write [vals], in order, over the elements of [a] where [mask] is true. *)
Fixpoint assign {A} (a : list A) (mask : list bool) (vals : list A) : list A :=
  match a, mask with
  | x :: a', true :: mask' =>
      match vals with
      | v :: vals' => v :: assign a' mask' vals'
      | [] => x :: assign a' mask' []
      end
  | x :: a', false :: mask' => x :: assign a' mask' vals
  | _, _ => a
  end.

(** [a[mask] = vals]: the mask must have the shape of [a], and [vals] one
    value per selected element. *)
Definition setitem_mask {A} (a : list A) (mask : list bool) (vals : list A) : py (list A) :=
  if (length mask =? length a)%nat then
    if (length vals =? length (select a mask))%nat then Ret (assign a mask vals)
    else Raise ValueError
  else Raise IndexError.

(** [a[idx]] for an array of integer indices. *)
Definition getitem_indices {A} (a : list A) (idx : list nat) : py (list A) :=
  match mapM (λ i, a !! i) idx with
  | Some v => Ret v
  | None => Raise IndexError
  end.

(** Elementwise [==], [!=], [&], [<], [~] and [1 - a]. *)
Definition np_eq (a b : list Z) : list bool := zip_with Z.eqb a b.
Definition np_ne (a b : list Z) : list bool := zip_with (λ x y, negb (x =? y)) a b.
Definition np_and (a b : list bool) : list bool := zip_with andb a b.
Definition Qltb (x y : Q) : bool := negb (Qle_bool y x).
Definition np_lt (a : list Q) (p : Q) : list bool := (λ x, Qltb x p) <$> a.
Definition np_not (a : list bool) : list bool := negb <$> a.
Definition np_rsub (c : Z) (a : list Z) : list Z := (λ x, c - x) <$> a.

(** [np.sum] of a boolean array: the number of true entries. *)
Definition np_sum (a : list bool) : nat := length (filter (λ b, b = true) a).

(** [np.arange(n)] and [np.isin(a, test)]. *)
Definition np_arange (n : nat) : list nat := seq 0 n.
Definition np_isin (a test : list nat) : list bool := (λ i, bool_decide (i ∈ test)) <$> a.

(** [for i in range(n)] over a loop-carried value. *)
Fixpoint for_each {S} (idx : list nat) (body : nat → S → py S) (s : S) : py S :=
  match idx with
  | [] => Ret s
  | i :: idx' => s' ← body i s; for_each idx' body s'
  end.

Definition for_range {S} (N : Z) (body : nat → S → py S) (s : S) : py S :=
  for_each (seq 0 (Z.to_nat N)) body s.

(** ** Doubles and text formatting *)

(** Nearest integer to a rational, ties to even. *)
Definition round_half_even (x : Q) : Z :=
  let n := Qnum x in
  let d := Z.pos (Qden x) in
  let q := n / d in
  let r := n mod d in
  if 2 * r <? d then q
  else if d <? 2 * r then q + 1
  else if Z.even q then q else q + 1.

(** [floor (log2 (n / d))], for positive [n] and [d]. *)
Definition log2_floor_ratio (n d : Z) : Z :=
  let k := Z.log2 n - Z.log2 d in
  if (if 0 <=? k then d * 2 ^ k <=? n else d <=? n * 2 ^ (- k)) then k else k - 1.

(** [x * 2 ^ e]. *)
Definition scale2 (x : Q) (e : Z) : Q :=
  if 0 <=? e then (Qnum x * 2 ^ e) # (Qden x)
  else Qnum x # (Qden x * Z.to_pos (2 ^ (- e))).

(** The binary64 number nearest to [x], ties to the even significand:
    the double that a float operation returns when its exact result is
    [x].  The significand has 53 bits and the exponent of its last bit is
    at least -1074.  Overflow to infinity is left out: the operands
    rounded here are a QBER, between 0 and 1, and 100 times a QBER. *)
Definition float64 (x : Q) : Q :=
  let n := Z.abs (Qnum x) in
  if n =? 0 then 0%Q
  else
    let e := Z.max (log2_floor_ratio n (Z.pos (Qden x)) - 52) (-1074) in
    let m := round_half_even (scale2 (n # Qden x) (- e)) in
    let v := scale2 (inject_Z m) e in
    if Qnum x <? 0 then (- v)%Q else v.

(** The rational that a finite machine double denotes. *)
Definition float_value (f : float) : option Q :=
  match Prim2SF f with
  | S754_zero _ => Some 0%Q
  | S754_finite s m e => Some (scale2 (inject_Z (if s then Z.neg m else Z.pos m)) e)
  | _ => None
  end.

(** [errors / CHECK_SIZE * 100] on machine doubles, against which
    [float64] is checked below. *)
Definition machine_percent (errors CHECK_SIZE : nat) : float :=
  (PrimFloat.of_uint63 (Uint63.of_Z (Z.of_nat errors))
     / PrimFloat.of_uint63 (Uint63.of_Z (Z.of_nat CHECK_SIZE)) * 100)%float.

(** The format [{x:.2f}] of a double [x]: the exact value of the double
    rounded to two decimals, ties to even. *)
Definition format_2f (x : Q) : string :=
  let c := round_half_even (x * 100)%Q in
  let a := Z.abs c in
  (if c <? 0 then "-" else "") +:+ pretty (a / 100) +:+ "."
    +:+ pretty (a mod 100 / 10) +:+ pretty (a mod 10).

(** ["".join(map(str, a))]. *)
Definition join_str (a : list Z) : string := foldr String.app "" (pretty <$> a).

(** ** Configuration *)

(** The three module-level constants read by [run_qkd_protocol]. *)
Record config : Type := {
  NUM_PHOTONS : Z;
  EAVESDROP_PROB : Q;
  SECURITY_THRESHOLD : Q;
}.

(** The values the module assigns. *)
Definition module_config : config :=
  {| NUM_PHOTONS := 1000; EAVESDROP_PROB := 0.5%Q; SECURITY_THRESHOLD := 0.11%Q |}.

(** ** The function [run_qkd_protocol] *)

(** Locals that exist only when an eavesdropper is simulated. *)
Record eve_locals : Type := {
  eve_bases : list Z;
  intercept_mask : list bool;
  eve_error_mask : list bool;
}.

(** Locals of the security check. *)
Record check_locals : Type := {
  CHECK_SIZE : nat;
  check_indices : list nat;
  alice_check : list Z;
  bob_check : list Z;
  errors : nat;
  qber : Q;
  remaining_key : list Z;
}.

(** The local variables of one call at the point where it returns,
    together with the returned pair. *)
Record frame : Type := {
  alice_bits : list Z;
  alice_bases : list Z;
  bob_bases : list Z;
  eve : option eve_locals;
  received_bits : list Z;
  match_mask : list bool;
  bob_bits : list Z;
  sift_mask : list bool;
  alice_sifted_key : list Z;
  bob_sifted_key : list Z;
  sifted_length : nat;
  check : option check_locals;
  returned : option (list Z) * string;
}.

(** Step 2, the eavesdropper's branch: the flipped stream and her locals. *)
Definition eavesdrop (cfg : config) (alice_bases received_bits : list Z)
  : py (list Z * option eve_locals) :=
  let N := NUM_PHOTONS cfg in
  eve_bases ← np_random_randint_vec N;
  r ← np_random_rand N;
  let intercept_mask := np_lt r (EAVESDROP_PROB cfg) in
  let eve_error_mask := np_and intercept_mask (np_ne alice_bases eve_bases) in
  hit ← getitem_mask received_bits eve_error_mask;
  received_bits ← setitem_mask received_bits eve_error_mask (np_rsub 1 hit);
  mret (received_bits,
        Some {| eve_bases := eve_bases; intercept_mask := intercept_mask;
                eve_error_mask := eve_error_mask |}).

(** Step 3, the body of the measurement loop. *)
Definition measure (match_mask : list bool) (received_bits : list Z)
    (i : nat) (bob_bits : list Z) : py (list Z) :=
  m ← getitem match_mask i;
  if m : bool then
    x ← getitem received_bits i; setitem bob_bits i x
  else
    x ← np_random_randint; setitem bob_bits i x.

(** The double [qber * 100] of the two f-strings.  [qber] is the exact
    quotient; the local of the code is its double, [float64 qber], and
    the product is rounded once more. *)
Definition percent (qber : Q) : Q := float64 (float64 qber * 100)%Q.

(** Step 6, the returned pair. *)
Definition decide_key (cfg : config) (qber : Q) (remaining_key : list Z)
  : option (list Z) * string :=
  if Qltb (SECURITY_THRESHOLD cfg) qber then
    (None,
     "🚨 Eavesdropper detected (QBER: " +:+ format_2f (percent qber)
       +:+ "%). The quantum disturbance proves intrusion, so the key is discarded and the conversation is cut.")
  else
    let key_str := join_str (take 10 remaining_key) +:+ "..." in
    (Some remaining_key,
     "✅ Key is SECURE (QBER: " +:+ format_2f (percent qber)
       +:+ "%). The low error rate confirms no intrusion, and the remaining key is successfully generated ("
       +:+ key_str +:+ ").").

(** The whole function, returning its locals along with the returned
    pair. *)
Definition run_qkd_protocol_frame (cfg : config) (eavesdropper_present : bool) : py frame :=
  (* 1. Preparation *)
  let N := NUM_PHOTONS cfg in
  alice_bits ← np_random_randint_vec N;
  alice_bases ← np_random_randint_vec N;
  bob_bases ← np_random_randint_vec N;
  (* 2. Transmission *)
  let received_bits := alice_bits in
  '(received_bits, eve) ←
    (if eavesdropper_present then eavesdrop cfg alice_bases received_bits
     else mret (received_bits, None));
  (* 3. Bob's measurement *)
  let bob_bits := np_zeros N in
  let match_mask := np_eq alice_bases bob_bases in
  bob_bits ← for_range N (measure match_mask received_bits) bob_bits;
  (* 4. Basis sifting *)
  let sift_mask := np_eq alice_bases bob_bases in
  alice_sifted_key ← getitem_mask alice_bits sift_mask;
  bob_sifted_key ← getitem_mask bob_bits sift_mask;
  let sifted_length := length alice_sifted_key in
  let locals check returned :=
    {| alice_bits := alice_bits; alice_bases := alice_bases; bob_bases := bob_bases;
       eve := eve; received_bits := received_bits; match_mask := match_mask;
       bob_bits := bob_bits; sift_mask := sift_mask;
       alice_sifted_key := alice_sifted_key; bob_sifted_key := bob_sifted_key;
       sifted_length := sifted_length; check := check; returned := returned |} in
  if (sifted_length =? 0)%nat then
    mret (locals None (None, "Key failure due to sifting."))
  else
    (* 5. Security check *)
    let CHECK_SIZE := (sifted_length / 4)%nat in
    check_indices ← np_random_choice sifted_length CHECK_SIZE;
    alice_check ← getitem_indices alice_sifted_key check_indices;
    bob_check ← getitem_indices bob_sifted_key check_indices;
    let errors := np_sum (np_ne alice_check bob_check) in
    let qber :=
      if (0 <? CHECK_SIZE)%nat
      then (inject_Z (Z.of_nat errors) / inject_Z (Z.of_nat CHECK_SIZE))%Q
      else 0%Q in
    remaining_key ←
      getitem_mask alice_sifted_key
        (np_not (np_isin (np_arange sifted_length) check_indices));
    (* 6. Final decision *)
    mret (locals
            (Some {| CHECK_SIZE := CHECK_SIZE; check_indices := check_indices;
                     alice_check := alice_check; bob_check := bob_check;
                     errors := errors; qber := qber; remaining_key := remaining_key |})
            (decide_key cfg qber remaining_key)).

(** [run_qkd_protocol(eavesdropper_present)]: the pair it returns. *)
Definition run_qkd_protocol (cfg : config) (eavesdropper_present : bool)
  : py (option (list Z) * string) :=
  returned <$> run_qkd_protocol_frame cfg eavesdropper_present.

(** ** The driver *)

(** The module-level statements after the function: pick the case at
    random, run one simulation and print the justification. *)
Definition main (cfg : config) : py unit :=
  Print "## 🔒 QKD Eavesdropper Detection Simulation (Random Case)" (
  eavesdropper_status ← PyChoice Ret;
  let case_description :=
    if eavesdropper_status : bool then "*EAVESDROPPER PRESENT*" else "*NO EAVESDROPPER*" in
  Print ("--- Running Simulation: " +:+ case_description +:+ " ---") (
  '(secret_key, justification) ← run_qkd_protocol cfg eavesdropper_status;
  let rule := foldr String.app "" (replicate 50 "-") in
  Print rule (Print justification (Print rule (Ret tt))))).

(** ** A replayable random source *)

(** The generator state is a tape of recorded answers.  Each request
    consumes one cell; a cell that is not a legal answer to the request
    is replaced by a fixed legal one, so that the source obeys numpy's
    guarantees on every tape. *)
Definition bitb (b : Z) : bool := (b =? 0) || (b =? 1).
Definition unitb (x : Q) : bool := Qle_bool 0 x && Qltb x 1.

Definition tape_randint_vec (n : nat) (t : list draw) : list Z * list draw :=
  match t with
  | DrawRandintVec m v :: t' =>
      if (length v =? n)%nat && forallb bitb v then (v, t') else (replicate n 0, t')
  | _ :: t' => (replicate n 0, t')
  | [] => (replicate n 0, [])
  end.

Definition tape_rand_vec (n : nat) (t : list draw) : list Q * list draw :=
  match t with
  | DrawRandVec m v :: t' =>
      if (length v =? n)%nat && forallb unitb v then (v, t') else (replicate n 0%Q, t')
  | _ :: t' => (replicate n 0%Q, t')
  | [] => (replicate n 0%Q, [])
  end.

Definition tape_randint (t : list draw) : Z * list draw :=
  match t with
  | DrawRandint v :: t' => if bitb v then (v, t') else (0, t')
  | _ :: t' => (0, t')
  | [] => (0, [])
  end.

Definition tape_choice (a size : nat) (t : list draw) : list nat * list draw :=
  match t with
  | DrawChoice a' size' v :: t' =>
      if (length v =? size)%nat && forallb (λ i, i <? a)%nat v && bool_decide (NoDup v)
      then (v, t') else (seq 0 size, t')
  | _ :: t' => (seq 0 size, t')
  | [] => (seq 0 size, [])
  end.

Definition tape_py_choice (t : list draw) : bool * list draw :=
  match t with
  | DrawPyChoice b :: t' => (b, t')
  | _ :: t' => (false, t')
  | [] => (false, [])
  end.

Definition Tape : RandomSource :=
  {| rng := list draw;
     src_randint_vec := tape_randint_vec;
     src_rand_vec := tape_rand_vec;
     src_randint := tape_randint;
     src_choice := tape_choice;
     src_py_choice := tape_py_choice |}.

(** ** Auxiliary definitions for the statements *)

(** The outcome of running one program and then a second one on its
    value. *)
Definition and_then {R A B} (o : outcome R A) (k : A → rng R → outcome R B) : outcome R B :=
  match result o with
  | inl e =>
      {| result := inl e; rng_after := rng_after o; draws := draws o; stdout := stdout o |}
  | inr a =>
      let o' := k a (rng_after o) in
      {| result := result o'; rng_after := rng_after o';
         draws := draws o ++ draws o'; stdout := stdout o ++ stdout o' |}
  end.

(** The stream with the bits under [mask] complemented. *)
Definition flip_where (mask : list bool) (bits : list Z) : list Z :=
  zip_with (λ (m : bool) b, if m then 1 - b else b) mask bits.


(** The draws of the eavesdropper's branch and what they determine. *)
Definition eve_ok (cfg : config) (f : frame) (eve_draws : list draw) : Prop :=
  let n := Z.to_nat (NUM_PHOTONS cfg) in
  match eve f with
  | None => eve_draws = [] ∧ received_bits f = alice_bits f
  | Some e =>
      ∃ r : list Q,
        eve_draws = [DrawRandintVec n (eve_bases e); DrawRandVec n r] ∧
        length (eve_bases e) = n ∧ length r = n ∧
        Forall (λ x, (0 <= x)%Q ∧ (x < 1)%Q) r ∧
        intercept_mask e = np_lt r (EAVESDROP_PROB cfg) ∧
        eve_error_mask e = np_and (intercept_mask e) (np_ne (alice_bases f) (eve_bases e)) ∧
        received_bits f = flip_where (eve_error_mask e) (alice_bits f)
  end.

(** The draw of the security check and what it determines. *)
Definition check_ok (cfg : config) (f : frame) (check_draws : list draw) : Prop :=
  match check f with
  | None =>
      check_draws = [] ∧ sifted_length f = 0%nat ∧
      returned f = (None, "Key failure due to sifting.")
  | Some c =>
      check_draws = [DrawChoice (sifted_length f) (CHECK_SIZE c) (check_indices c)] ∧
      sifted_length f ≠ 0%nat ∧
      CHECK_SIZE c = (sifted_length f / 4)%nat ∧
      length (check_indices c) = CHECK_SIZE c ∧
      NoDup (check_indices c) ∧
      Forall (λ i, (i < sifted_length f)%nat) (check_indices c) ∧
      mapM (λ i, alice_sifted_key f !! i) (check_indices c) = Some (alice_check c) ∧
      mapM (λ i, bob_sifted_key f !! i) (check_indices c) = Some (bob_check c) ∧
      errors c = np_sum (np_ne (alice_check c) (bob_check c)) ∧
      qber c = (if (0 <? CHECK_SIZE c)%nat
                then (inject_Z (Z.of_nat (errors c)) / inject_Z (Z.of_nat (CHECK_SIZE c)))%Q
                else 0%Q) ∧
      remaining_key c =
        select (alice_sifted_key f)
          (np_not (np_isin (np_arange (sifted_length f)) (check_indices c))) ∧
      returned f = decide_key cfg (qber c) (remaining_key c)
  end.

(** A frame [f] and the list [ds] of draws of one call that returned:
    how every local is determined by the configuration, the flag and
    the draws. *)
Record frame_ok (cfg : config) (eavesdropper_present : bool)
    (f : frame) (ds : list draw) : Prop := {
  ok_alice_bits : length (alice_bits f) = Z.to_nat (NUM_PHOTONS cfg);
  ok_alice_bits_bit : Forall is_bit (alice_bits f);
  ok_alice_bases : length (alice_bases f) = Z.to_nat (NUM_PHOTONS cfg);
  ok_bob_bases : length (bob_bases f) = Z.to_nat (NUM_PHOTONS cfg);
  ok_eve_present : is_Some (eve f) ↔ eavesdropper_present = true;
  ok_match_mask : match_mask f = np_eq (alice_bases f) (bob_bases f);
  ok_sift_mask : sift_mask f = np_eq (alice_bases f) (bob_bases f);
  ok_bob_bits : length (bob_bits f) = Z.to_nat (NUM_PHOTONS cfg);
  ok_bob_match :
    ∀ i, match_mask f !! i = Some true → bob_bits f !! i = received_bits f !! i;
  ok_bob_noise : Forall is_bit (select (bob_bits f) (np_not (match_mask f)));
  ok_alice_sifted : alice_sifted_key f = select (alice_bits f) (sift_mask f);
  ok_bob_sifted : bob_sifted_key f = select (bob_bits f) (sift_mask f);
  ok_sifted_length : sifted_length f = length (alice_sifted_key f);
  ok_draws :
    ∃ eve_draws check_draws,
      ds = [DrawRandintVec (Z.to_nat (NUM_PHOTONS cfg)) (alice_bits f);
            DrawRandintVec (Z.to_nat (NUM_PHOTONS cfg)) (alice_bases f);
            DrawRandintVec (Z.to_nat (NUM_PHOTONS cfg)) (bob_bases f)]
           ++ eve_draws
           ++ (DrawRandint <$> select (bob_bits f) (np_not (match_mask f)))
           ++ check_draws ∧
      eve_ok cfg f eve_draws ∧ check_ok cfg f check_draws;
}.

(** The answers to the scalar requests [np.random.randint(0, 2)] among
    the draws of a run, in the order they were made. *)
Definition scalar_draws (ds : list draw) : list Z :=
  omap (λ d, match d with DrawRandint v => Some v | _ => None end) ds.

(** Programs that never print. *)
Fixpoint silent {A} (p : py A) : Prop :=
  match p with
  | Ret _ | Raise _ => True
  | RandintVec _ k => ∀ v, silent (k v)
  | RandVec _ k => ∀ v, silent (k v)
  | Randint k => ∀ v, silent (k v)
  | Choice _ _ k => ∀ v, silent (k v)
  | PyChoice k => ∀ v, silent (k v)
  | Print _ _ => False
  end.

(** Positions of the photon stream where Alice's and Bob's bases agree,
    and where they differ. *)
Definition matched (f : frame) : list nat :=
  filter (λ i, alice_bases f !!! i = bob_bases f !!! i) (seq 0 (length (alice_bases f))).
Definition mismatched (f : frame) : list nat :=
  filter (λ i, alice_bases f !!! i ≠ bob_bases f !!! i) (seq 0 (length (alice_bases f))).

(** Indices of the sifted key outside the check sample, in increasing
    order. *)
Definition remaining_indices (f : frame) (c : check_locals) : list nat :=
  filter (λ i, i ∉ check_indices c) (seq 0 (sifted_length f)).

(** Number of sampled positions where the two sifted keys disagree. *)
Definition disagreements (f : frame) (c : check_locals) : nat :=
  length (filter (λ i, alice_sifted_key f !!! i ≠ bob_sifted_key f !!! i) (check_indices c)).

(** A configuration in the ranges the description asks for. *)
Definition valid_config (cfg : config) : Prop :=
  0 < NUM_PHOTONS cfg ∧
  (0 <= EAVESDROP_PROB cfg)%Q ∧ (EAVESDROP_PROB cfg <= 1)%Q ∧
  (0 <= SECURITY_THRESHOLD cfg)%Q ∧ (SECURITY_THRESHOLD cfg <= 1)%Q.

(** ** Concrete runs used as examples *)

(** Eight photons, the module's probabilities. *)
Definition demo_config : config :=
  {| NUM_PHOTONS := 8; EAVESDROP_PROB := 0.5%Q; SECURITY_THRESHOLD := 0.11%Q |}.

(** Bases agree at positions 0, 2, 3, 5 and 6; the check samples the
    sifted index 2. *)
Definition demo_tape : list draw :=
  [DrawRandintVec 8 [1; 0; 1; 1; 0; 0; 1; 0];
   DrawRandintVec 8 [0; 1; 0; 1; 0; 1; 0; 1];
   DrawRandintVec 8 [0; 0; 0; 1; 1; 1; 0; 0];
   DrawRandint 1; DrawRandint 0; DrawRandint 1;
   DrawChoice 5 1 [2%nat]].

(** The same stream with an eavesdropper who flips position 0; the check
    samples the sifted index 0 and sees the error. *)
Definition demo_tape_eve : list draw :=
  [DrawRandintVec 8 [1; 0; 1; 1; 0; 0; 1; 0];
   DrawRandintVec 8 [0; 1; 0; 1; 0; 1; 0; 1];
   DrawRandintVec 8 [0; 0; 0; 1; 1; 1; 0; 0];
   DrawRandintVec 8 [1; 1; 0; 1; 0; 1; 0; 1];
   DrawRandVec 8 [0.1; 0.2; 0.7; 0.4; 0.5; 0.3; 0.2; 0.1]%Q;
   DrawRandint 1; DrawRandint 0; DrawRandint 1;
   DrawChoice 5 1 [0%nat]].

(** As [demo_tape_eve], with other answers to Bob's three scalar
    draws. *)
Definition demo_tape_eve_noise : list draw :=
  [DrawRandintVec 8 [1; 0; 1; 1; 0; 0; 1; 0];
   DrawRandintVec 8 [0; 1; 0; 1; 0; 1; 0; 1];
   DrawRandintVec 8 [0; 0; 0; 1; 1; 1; 0; 0];
   DrawRandintVec 8 [1; 1; 0; 1; 0; 1; 0; 1];
   DrawRandVec 8 [0.1; 0.2; 0.7; 0.4; 0.5; 0.3; 0.2; 0.1]%Q;
   DrawRandint 0; DrawRandint 1; DrawRandint 0;
   DrawChoice 5 1 [0%nat]].

(** As [demo_tape_eve], but the check samples the sifted index 2 and
    misses the error. *)
Definition demo_tape_eve_missed : list draw :=
  [DrawRandintVec 8 [1; 0; 1; 1; 0; 0; 1; 0];
   DrawRandintVec 8 [0; 1; 0; 1; 0; 1; 0; 1];
   DrawRandintVec 8 [0; 0; 0; 1; 1; 1; 0; 0];
   DrawRandintVec 8 [1; 1; 0; 1; 0; 1; 0; 1];
   DrawRandVec 8 [0.1; 0.2; 0.7; 0.4; 0.5; 0.3; 0.2; 0.1]%Q;
   DrawRandint 1; DrawRandint 0; DrawRandint 1;
   DrawChoice 5 1 [2%nat]].

(** Bases that never agree. *)
Definition demo_tape_no_match : list draw :=
  [DrawRandintVec 8 [1; 0; 1; 1; 0; 0; 1; 0];
   DrawRandintVec 8 [0; 0; 0; 0; 0; 0; 0; 0];
   DrawRandintVec 8 [1; 1; 1; 1; 1; 1; 1; 1]].

(** A configuration outside the ranges: no photon count problem, but an
    interception probability of 1.5 and a threshold of -0.5. *)
Definition odd_config : config :=
  {| NUM_PHOTONS := 8; EAVESDROP_PROB := 1.5%Q; SECURITY_THRESHOLD := (-0.5)%Q |}.

(** A run of the module's own configuration (1000 photons): all bases
    agree, the eavesdropper intercepts everything and guesses the wrong
    basis at position 0 only, and the check samples the sifted indices
    1 to 250. *)
Definition module_tape_eve_missed : list draw :=
  [DrawRandintVec 1000 (replicate 1000 0);
   DrawRandintVec 1000 (replicate 1000 0);
   DrawRandintVec 1000 (replicate 1000 0);
   DrawRandintVec 1000 (1 :: replicate 999 0);
   DrawRandVec 1000 (replicate 1000 0%Q);
   DrawChoice 1000 250 (seq 1 250)].

(** Whether the eavesdropper flipped the photon at position [i]. *)
Definition disturbed (f : frame) (i : nat) : bool :=
  match eve f with
  | Some e => eve_error_mask e !!! i
  | None => false
  end.

(** The draws of the eavesdropper's branch, as the frame records them:
    none without an eavesdropper, two arrays with one. *)
Definition is_eve_draws (cfg : config) (f : frame) (ds : list draw) : Prop :=
  match eve f with
  | None => ds = []
  | Some e =>
      ∃ r : list Q,
        ds = [DrawRandintVec (Z.to_nat (NUM_PHOTONS cfg)) (eve_bases e);
              DrawRandVec (Z.to_nat (NUM_PHOTONS cfg)) r] ∧
        intercept_mask e = np_lt r (EAVESDROP_PROB cfg)
  end.

(** The draw of the security check, as the frame records it. *)
Definition check_draw (f : frame) : list draw :=
  match check f with
  | None => []
  | Some c => [DrawChoice (sifted_length f) (CHECK_SIZE c) (check_indices c)]
  end.

(** One sifted bit out of eight photons, flipped by the eavesdropper;
    the check sample is empty. *)
Definition demo_tape_short : list draw :=
  [DrawRandintVec 8 [1; 0; 1; 1; 0; 0; 1; 0];
   DrawRandintVec 8 [0; 1; 0; 1; 0; 1; 0; 1];
   DrawRandintVec 8 [0; 0; 1; 0; 1; 0; 1; 0];
   DrawRandintVec 8 [1; 1; 0; 1; 0; 1; 0; 1];
   DrawRandVec 8 [0.1; 0.2; 0.7; 0.4; 0.5; 0.3; 0.2; 0.1]%Q;
   DrawRandint 1; DrawRandint 0; DrawRandint 1; DrawRandint 0;
   DrawRandint 0; DrawRandint 1; DrawRandint 1;
   DrawChoice 1 0 []].

(** Eight photons and an eavesdropper who never intercepts. *)
Definition idle_eve_config : config :=
  {| NUM_PHOTONS := 8; EAVESDROP_PROB := 0%Q; SECURITY_THRESHOLD := 0.11%Q |}.

(** Whether [percent] and the machine agree on an error count. *)
Definition percent_agrees (errors CHECK_SIZE : nat) : bool :=
  match float_value (machine_percent errors CHECK_SIZE) with
  | Some q =>
      Qeq_bool q (percent (inject_Z (Z.of_nat errors) / inject_Z (Z.of_nat CHECK_SIZE)))
  | None => false
  end.
(** * Properties *)

(** ** Running a sequence of two programs *)

Lemma and_then_drew {R A B} d (o : outcome R A) (k : A → rng R → outcome R B) :
  and_then (drew d o) k = drew d (and_then o k).
Proof. unfold and_then, drew; simpl. by destruct (result o). Qed.

Lemma and_then_printed {R A B} s (o : outcome R A) (k : A → rng R → outcome R B) :
  and_then (printed s o) k = printed s (and_then o k).
Proof. unfold and_then, printed; simpl. by destruct (result o). Qed.

Lemma exec_bind R {A B} (m : py A) (f : A → py B) g :
  exec R (m ≫= f) g = and_then (exec R m g) (λ a g', exec R (f a) g').
Proof.
  unfold mbind, py_mbind.
  revert g; induction m as [a|e|n k IH|n k IH|k IH|a size k IH|k IH|s k IH]; intros g; simpl.
  - unfold and_then; simpl. by destruct (exec R (f a) g).
  - done.
  - destruct (src_randint_vec R n g) as [v g']. by rewrite IH, and_then_drew.
  - destruct (src_rand_vec R n g) as [v g']. by rewrite IH, and_then_drew.
  - destruct (src_randint R g) as [v g']. by rewrite IH, and_then_drew.
  - destruct (src_choice R a size g) as [v g']. by rewrite IH, and_then_drew.
  - destruct (src_py_choice R g) as [v g']. by rewrite IH, and_then_drew.
  - by rewrite IH, and_then_printed.
Qed.

Lemma exec_fmap R {A B} (h : A → B) (m : py A) g :
  exec R (h <$> m) g = and_then (exec R m g) (λ a g', exec R (Ret (h a)) g').
Proof. apply (exec_bind R m (λ a, Ret (h a))). Qed.

(** ** The replayable source is lawful *)

Lemma bitb_is_bit b : bitb b = true → is_bit b.
Proof. unfold bitb, is_bit. lia. Qed.

Lemma unitb_range x : unitb x = true → (0 <= x)%Q ∧ (x < 1)%Q.
Proof.
  unfold unitb, Qltb. intros [H1 H2]%andb_true_iff. split.
  - by apply Qle_bool_iff.
  - apply negb_true_iff in H2. apply Qnot_le_lt. intros H%Qle_bool_iff. congruence.
Qed.

Lemma Tape_lawful : Lawful Tape.
Proof.
  split; simpl.
  - intros n [|[m v| | | |] t]; simpl; rewrite ?length_replicate; try done.
    destruct (_ && _) eqn:E; simpl; rewrite ?length_replicate; try done.
    apply andb_true_iff in E as [E _]. by apply Nat.eqb_eq in E.
  - intros n [|[m v| | | |] t]; simpl; try (apply Forall_replicate; by left).
    destruct (_ && _) eqn:E; simpl; [|apply Forall_replicate; by left].
    apply andb_true_iff in E as [_ E]. apply Forall_forall. intros b Hb.
    apply bitb_is_bit. rewrite forallb_forall in E. by apply E, list_elem_of_In.
  - intros n [|[|m v| | |] t]; simpl; rewrite ?length_replicate; try done.
    destruct (_ && _) eqn:E; simpl; rewrite ?length_replicate; try done.
    apply andb_true_iff in E as [E _]. by apply Nat.eqb_eq in E.
  - intros n [|[|m v| | |] t]; simpl; try (apply Forall_replicate; by split).
    destruct (_ && _) eqn:E; simpl; [|apply Forall_replicate; by split].
    apply andb_true_iff in E as [_ E]. apply Forall_forall. intros b Hb.
    apply unitb_range. rewrite forallb_forall in E. by apply E, list_elem_of_In.
  - intros [|[| |v| |] t]; simpl; try by left.
    destruct (bitb v) eqn:E; simpl; [by apply bitb_is_bit | by left].
  - intros a size [|[| | |a' size' v|] t] Hle; simpl; rewrite ?length_seq; try done.
    destruct (_ && _) eqn:E; simpl; rewrite ?length_seq; try done.
    apply andb_true_iff in E as [[E _]%andb_true_iff _]. by apply Nat.eqb_eq in E.
  - intros a size [|[| | |a' size' v|] t] Hle; simpl; try apply NoDup_seq.
    destruct (_ && _) eqn:E; simpl; [|apply NoDup_seq].
    apply andb_true_iff in E as [_ E]. by apply bool_decide_eq_true in E.
  - assert (Hseq : ∀ a size, (size ≤ a)%nat → Forall (λ i, (i < a)%nat) (seq 0 size)).
    { intros a size Hle. apply Forall_forall. intros i Hi%elem_of_seq. lia. }
    intros a size [|[| | |a' size' v|] t] Hle; simpl; try by apply Hseq.
    destruct (_ && _) eqn:E; simpl; [|by apply Hseq].
    apply andb_true_iff in E as [[_ E]%andb_true_iff _]. apply Forall_forall. intros i Hi.
    rewrite forallb_forall in E. apply Nat.ltb_lt. by apply E, list_elem_of_In.
Qed.

(** ** Boolean-mask indexing *)

Lemma length_select_le {A} (a : list A) mask : (length (select a mask) ≤ length a)%nat.
Proof.
  revert mask; induction a as [|x a IH]; intros [|[] mask]; simpl; try lia;
    specialize (IH mask); lia.
Qed.

Lemma length_select_same {A B} (a : list A) (b : list B) mask :
  length a = length b → length (select a mask) = length (select b mask).
Proof.
  revert a b; induction mask as [|m mask IH]; intros [|x a] [|y b] H; simpl in *; try done.
  destruct m; simpl; rewrite (IH a b); auto.
Qed.

Lemma assign_flip (a : list Z) mask :
  length mask = length a →
  assign a mask (np_rsub 1 (select a mask)) = flip_where mask a.
Proof.
  revert mask; induction a as [|x a IH]; intros [|[] mask] Hlen; simpl in *; try done.
  - f_equal. apply IH. lia.
  - f_equal. apply IH. lia.
Qed.

Lemma length_flip_where mask (a : list Z) :
  length mask = length a → length (flip_where mask a) = length a.
Proof. intros H. unfold flip_where. rewrite length_zip_with. lia. Qed.

Lemma select_lookup_eq {A} (a b : list A) mask :
  length a = length mask → length b = length mask →
  (∀ i, mask !! i = Some true → a !! i = b !! i) →
  select a mask = select b mask.
Proof.
  revert a b; induction mask as [|m mask IH]; intros [|x a] [|y b] Ha Hb H; simpl in *;
    try done.
  assert (select a mask = select b mask) as ->.
  { apply IH; [lia | lia |]. intros i Hi. apply (H (S i) Hi). }
  destruct m; [|done]. specialize (H 0%nat eq_refl). simpl in H. congruence.
Qed.

(** ** Running the numpy draws *)

Section exec_steps.
Context (R : RandomSource).

Lemma exec_randint_vec_bind {B} N (f : list Z → py B) g :
  0 ≤ N →
  exec R (np_random_randint_vec N ≫= f) g =
  drew (DrawRandintVec (Z.to_nat N) (src_randint_vec R (Z.to_nat N) g).1)
       (exec R (f (src_randint_vec R (Z.to_nat N) g).1) (src_randint_vec R (Z.to_nat N) g).2).
Proof.
  intros HN. unfold np_random_randint_vec.
  destruct (Z.ltb_spec N 0) as [|_]; [lia|]. simpl.
  by destruct (src_randint_vec R (Z.to_nat N) g).
Qed.

Lemma exec_rand_bind {B} N (f : list Q → py B) g :
  0 ≤ N →
  exec R (np_random_rand N ≫= f) g =
  drew (DrawRandVec (Z.to_nat N) (src_rand_vec R (Z.to_nat N) g).1)
       (exec R (f (src_rand_vec R (Z.to_nat N) g).1) (src_rand_vec R (Z.to_nat N) g).2).
Proof.
  intros HN. unfold np_random_rand.
  destruct (Z.ltb_spec N 0) as [|_]; [lia|]. simpl.
  by destruct (src_rand_vec R (Z.to_nat N) g).
Qed.

Lemma exec_choice_bind {B} a size (f : list nat → py B) g :
  (size ≤ a)%nat →
  exec R (np_random_choice a size ≫= f) g =
  drew (DrawChoice a size (src_choice R a size g).1)
       (exec R (f (src_choice R a size g).1) (src_choice R a size g).2).
Proof.
  intros Hle. unfold np_random_choice.
  destruct (Nat.ltb_spec a size) as [|_]; [lia|]. simpl.
  by destruct (src_choice R a size g).
Qed.

Lemma getitem_mask_bind {A B} (a : list A) mask (f : list A → py B) :
  length mask = length a → getitem_mask a mask ≫= f = f (select a mask).
Proof. intros H. unfold getitem_mask. by rewrite H, Nat.eqb_refl. Qed.

Lemma getitem_indices_bind {A B} (a : list A) idx v (f : list A → py B) :
  mapM (λ i, a !! i) idx = Some v → getitem_indices a idx ≫= f = f v.
Proof. intros H. unfold getitem_indices. by rewrite H. Qed.

Lemma mapM_lookup_in_range {A} (a : list A) idx :
  Forall (λ i, (i < length a)%nat) idx → ∃ v, mapM (λ i, a !! i) idx = Some v.
Proof.
  intros H. destruct (mapM (λ i, a !! i) idx) as [v|] eqn:E; [by exists v|].
  apply mapM_None in E. apply Exists_exists in E as (i & Hi & Hnone).
  rewrite Forall_forall in H. apply H in Hi. apply lookup_ge_None in Hnone. lia.
Qed.
End exec_steps.

(** ** The measurement loop *)

Lemma take_S_eq {A} (l1 l2 : list A) a :
  take (S a) l1 = take (S a) l2 → take a l1 = take a l2.
Proof.
  intros H.
  assert (E : ∀ l : list A, take a l = take a (take (S a) l)).
  { intros l. rewrite take_take. f_equal. lia. }
  by rewrite (E l1), (E l2), H.
Qed.

Section measurement.
Context (R : RandomSource) (HR : Lawful R).
Context (mask : list bool) (received : list Z) (n : nat).
Context (Hmask : length mask = n) (Hreceived : length received = n).

Lemma exec_measure_match a bob g x :
  mask !! a = Some true → received !! a = Some x → (a < length bob)%nat →
  exec R (measure mask received a bob) g = exec R (Ret (<[a:=x]> bob)) g.
Proof.
  intros Hm Hx Ha. unfold measure, getitem, setitem. rewrite Hm. simpl.
  rewrite Hx. simpl. by destruct (Nat.ltb_spec a (length bob)); [|lia].
Qed.

Lemma exec_measure_mismatch a bob g :
  mask !! a = Some false → (a < length bob)%nat →
  exec R (measure mask received a bob) g =
  drew (DrawRandint (src_randint R g).1)
       (exec R (Ret (<[a:=(src_randint R g).1]> bob)) (src_randint R g).2).
Proof.
  intros Hm Ha. unfold measure, getitem, setitem. rewrite Hm. simpl.
  destruct (src_randint R g) as [v g']. simpl.
  by destruct (Nat.ltb_spec a (length bob)); [|lia].
Qed.

Lemma measure_loop k : ∀ a bob g,
  (a + k = n)%nat → length bob = n →
  ∃ bob',
    result (exec R (for_each (seq a k) (measure mask received) bob) g) = inr bob' ∧
    length bob' = n ∧
    take a bob' = take a bob ∧
    (∀ i, (a ≤ i)%nat → mask !! i = Some true → bob' !! i = received !! i) ∧
    Forall is_bit (select (drop a bob') (np_not (drop a mask))) ∧
    draws (exec R (for_each (seq a k) (measure mask received) bob) g) =
      DrawRandint <$> select (drop a bob') (np_not (drop a mask)) ∧
    stdout (exec R (for_each (seq a k) (measure mask received) bob) g) = [].
Proof.
  induction k as [|k IH]; intros a bob g Hak Hbob; simpl.
  - exists bob. assert (a = n) as -> by lia.
    rewrite !drop_ge by lia. simpl. split_and!; try done.
    intros i Hi Hm. apply lookup_lt_Some in Hm. lia.
  - rewrite exec_bind.
    destruct (lookup_lt_is_Some_2 mask a) as [m Hm]; [lia|].
    destruct (lookup_lt_is_Some_2 received a) as [x Hx]; [lia|].
    destruct m.
    + rewrite (exec_measure_match a bob g x) by (done || lia).
      unfold and_then; simpl.
      destruct (IH (S a) (<[a:=x]> bob) g) as (bob' & Hres & Hlen & Htake & Hpt & Hbits & Hdr & Hout);
        [lia | by rewrite length_insert |].
      assert (Ha : bob' !! a = Some x).
      { rewrite <- (lookup_take_lt bob' (S a) a) by lia. rewrite Htake.
        rewrite lookup_take_lt by lia. apply list_lookup_insert_eq. lia. }
      exists bob'. rewrite Hres, Hdr, Hout.
      rewrite (drop_S bob' x a Ha), (drop_S mask true a Hm). simpl.
      split_and!; try done.
      * rewrite <- (take_insert_ge bob a a x) by lia. by apply take_S_eq.
      * intros i Hi Hmi. destruct (decide (i = a)) as [->|]; [congruence|].
        apply Hpt; [lia | done].
    + rewrite (exec_measure_mismatch a bob g) by (done || lia).
      pose proof (randint_bit R HR g) as Hbit.
      destruct (src_randint R g) as [v g']. simpl in *.
      unfold and_then, drew; simpl.
      destruct (IH (S a) (<[a:=v]> bob) g') as (bob' & Hres & Hlen & Htake & Hpt & Hbits & Hdr & Hout);
        [lia | by rewrite length_insert |].
      assert (Ha : bob' !! a = Some v).
      { rewrite <- (lookup_take_lt bob' (S a) a) by lia. rewrite Htake.
        rewrite lookup_take_lt by lia. apply list_lookup_insert_eq. lia. }
      exists bob'. rewrite Hres, Hdr, Hout.
      rewrite (drop_S bob' v a Ha), (drop_S mask false a Hm). simpl.
      split_and!; try done.
      * rewrite <- (take_insert_ge bob a a v) by lia. by apply take_S_eq.
      * intros i Hi Hmi. destruct (decide (i = a)) as [->|]; [congruence|].
        apply Hpt; [lia | done].
      * by constructor.
Qed.
End measurement.

(** ** One call, step by step *)

Section run.
Context (R : RandomSource) (HR : Lawful R) (cfg : config).
Context (HN : 0 ≤ NUM_PHOTONS cfg).

Local Abbreviation n := (Z.to_nat (NUM_PHOTONS cfg)).

Local Arguments Nat.div : simpl never.
Local Arguments Qdiv : simpl never.
Local Arguments inject_Z : simpl never.
Local Arguments Z.of_nat : simpl never.
Local Arguments decide_key : simpl never.

Lemma length_np_eq (a b : list Z) k :
  length a = k → length b = k → length (np_eq a b) = k.
Proof. intros Ha Hb. unfold np_eq. rewrite length_zip_with. lia. Qed.

Lemma exec_eavesdrop ab rb g :
  length ab = n → length rb = n →
  ∃ eb r g',
    length eb = n ∧ length r = n ∧ Forall (λ x, (0 <= x)%Q ∧ (x < 1)%Q) r ∧
    exec R (eavesdrop cfg ab rb) g =
    {| result :=
         inr (flip_where (np_and (np_lt r (EAVESDROP_PROB cfg)) (np_ne ab eb)) rb,
              Some {| eve_bases := eb;
                      intercept_mask := np_lt r (EAVESDROP_PROB cfg);
                      eve_error_mask :=
                        np_and (np_lt r (EAVESDROP_PROB cfg)) (np_ne ab eb) |});
       rng_after := g';
       draws := [DrawRandintVec n eb; DrawRandVec n r];
       stdout := [] |}.
Proof.
  intros Hab Hrb. unfold eavesdrop.
  rewrite exec_randint_vec_bind by done.
  pose proof (randint_vec_length R HR n g) as Heb.
  destruct (src_randint_vec R n g) as [eb g1]. simpl in Heb |- *.
  rewrite exec_rand_bind by done.
  pose proof (rand_vec_length R HR n g1) as Hr.
  pose proof (rand_vec_range R HR n g1) as Hrange.
  destruct (src_rand_vec R n g1) as [r g2]. simpl in Hr, Hrange |- *.
  exists eb, r, g2. split; [done|]. split; [done|]. split; [done|].
  set (em := np_and (np_lt r (EAVESDROP_PROB cfg)) (np_ne ab eb)).
  assert (Hem : length em = length rb).
  { unfold em, np_and, np_lt, np_ne.
    rewrite !length_zip_with, length_fmap. lia. }
  rewrite getitem_mask_bind by done.
  unfold setitem_mask. rewrite Hem, Nat.eqb_refl.
  unfold np_rsub at 1. rewrite length_fmap, Nat.eqb_refl.
  rewrite assign_flip by done. reflexivity.
Qed.

Lemma length_isin_mask k idx : length (np_not (np_isin (np_arange k) idx)) = k.
Proof. unfold np_not, np_isin, np_arange. by rewrite !length_fmap, length_seq. Qed.

Lemma run_frame_ok eavesdropper_present g :
  ∃ f,
    result (exec R (run_qkd_protocol_frame cfg eavesdropper_present) g) = inr f ∧
    frame_ok cfg eavesdropper_present f
      (draws (exec R (run_qkd_protocol_frame cfg eavesdropper_present) g)) ∧
    stdout (exec R (run_qkd_protocol_frame cfg eavesdropper_present) g) = [].
Proof.
  remember (exec R (run_qkd_protocol_frame cfg eavesdropper_present) g) as o eqn:Ho.
  unfold run_qkd_protocol_frame in Ho.
  (* 1. Preparation *)
  rewrite exec_randint_vec_bind in Ho by done.
  pose proof (randint_vec_length R HR n g) as Hbits.
  pose proof (randint_vec_bits R HR n g) as Hbit.
  destruct (src_randint_vec R n g) as [abits g1]. simpl in Hbits, Hbit, Ho.
  rewrite exec_randint_vec_bind in Ho by done.
  pose proof (randint_vec_length R HR n g1) as Habases.
  destruct (src_randint_vec R n g1) as [abases g2]. simpl in Habases, Ho.
  rewrite exec_randint_vec_bind in Ho by done.
  pose proof (randint_vec_length R HR n g2) as Hbbases.
  destruct (src_randint_vec R n g2) as [bbases g3]. simpl in Hbbases, Ho.
  (* 2. Transmission *)
  rewrite exec_bind in Ho.
  assert (Htrans : ∃ rb ev eds g4,
    exec R (if eavesdropper_present then eavesdrop cfg abases abits
            else mret (abits, None)) g3 =
      {| result := inr (rb, ev); rng_after := g4; draws := eds; stdout := [] |} ∧
    length rb = n ∧ (is_Some ev ↔ eavesdropper_present = true) ∧
    match ev with
    | None => eds = [] ∧ rb = abits
    | Some e =>
        ∃ r : list Q,
          eds = [DrawRandintVec n (eve_bases e); DrawRandVec n r] ∧
          length (eve_bases e) = n ∧ length r = n ∧
          Forall (λ x, (0 <= x)%Q ∧ (x < 1)%Q) r ∧
          intercept_mask e = np_lt r (EAVESDROP_PROB cfg) ∧
          eve_error_mask e = np_and (intercept_mask e) (np_ne abases (eve_bases e)) ∧
          rb = flip_where (eve_error_mask e) abits
    end).
  { destruct eavesdropper_present.
    - destruct (exec_eavesdrop abases abits g3) as (eb & r & g4 & Heb & Hr & Hrange & ->); [done..|].
      eexists _, _, _, _. split; [reflexivity|]. simpl. split_and!.
      + rewrite length_flip_where; [done|].
        unfold np_and, np_lt, np_ne. rewrite !length_zip_with, length_fmap. lia.
      + split; [done | by eexists].
      + exists r. by split_and!.
    - eexists _, _, _, _. split; [reflexivity|]. simpl. by split_and!. }
  destruct Htrans as (rb & ev & eds & g4 & Htrans & Hrb & Hev & Hevok).
  rewrite Htrans in Ho. unfold and_then at 1 in Ho; simpl in Ho.
  (* 3. Bob's measurement *)
  rewrite exec_bind in Ho. unfold for_range in Ho.
  assert (Hmask : length (np_eq abases bbases) = n) by by apply length_np_eq.
  destruct (measure_loop R HR (np_eq abases bbases) rb n Hmask Hrb n 0%nat (np_zeros (NUM_PHOTONS cfg)) g4)
    as (bob & Hres & Hbob & _ & Hmatch & Hnoise & Hdraws & Hout);
    [lia | apply length_replicate |].
  rewrite !drop_0 in Hnoise, Hdraws.
  destruct (exec R (for_each _ _ _) g4) as [res g5 lds out]. simpl in Hres, Hdraws, Hout.
  subst res lds out. unfold and_then at 1 in Ho; simpl in Ho.
  (* 4. Basis sifting *)
  rewrite getitem_mask_bind in Ho by lia.
  rewrite getitem_mask_bind in Ho by lia.
  destruct (Nat.eqb_spec (length (select abits (np_eq abases bbases))) 0) as [H0|H0].
  - simpl in Ho. subst o. simpl. eexists. split; [reflexivity|]. split; [|done].
    split; simpl; try done.
    + intros i Hi. apply Hmatch; [lia | done].
    + exists eds, []. split; [|split].
      * by rewrite !app_nil_r.
      * unfold eve_ok; simpl. destruct ev as [e|]; [|done].
        destruct Hevok as (r & ?). by exists r.
      * by unfold check_ok; simpl.
  - (* 5. Security check *)
    set (sl := length (select abits (np_eq abases bbases))) in *.
    assert (Hle : (sl / 4 ≤ sl)%nat) by (apply Nat.Div0.div_le_upper_bound; lia).
    rewrite exec_choice_bind in Ho by done.
    pose proof (choice_length R HR sl (sl / 4) g5 Hle) as Hci.
    pose proof (choice_NoDup R HR sl (sl / 4) g5 Hle) as Hnd.
    pose proof (choice_range R HR sl (sl / 4) g5 Hle) as Hrg.
    destruct (src_choice R sl (sl / 4)%nat g5) as [ci g6]. simpl in Hci, Hnd, Hrg, Ho.
    assert (Hbsl : length (select bob (np_eq abases bbases)) = sl).
    { unfold sl. apply length_select_same. lia. }
    destruct (mapM_lookup_in_range (select abits (np_eq abases bbases)) ci) as [ac Hac];
      [done|].
    destruct (mapM_lookup_in_range (select bob (np_eq abases bbases)) ci) as [bc Hbc];
      [by rewrite Hbsl|].
    rewrite (getitem_indices_bind _ _ _ _ Hac) in Ho.
    rewrite (getitem_indices_bind _ _ _ _ Hbc) in Ho.
    rewrite getitem_mask_bind in Ho by apply length_isin_mask.
    simpl in Ho. subst o. simpl. eexists. split; [reflexivity|]. split; [|done].
    split; simpl; try done.
    + intros i Hi. apply Hmatch; [lia | done].
    + exists eds, [DrawChoice sl (sl / 4)%nat ci]. split; [|split].
      * done.
      * unfold eve_ok; simpl. destruct ev as [e|]; [|done].
        destruct Hevok as (r & ?). by exists r.
      * unfold check_ok; simpl. by split_and!.
Qed.
End run.

(** ** Masks as filters over positions *)

Lemma select_fmap_seq_from {A} `{!Inhabited A} (p : nat → bool) (a pre : list A) :
  select a (p <$> seq (length pre) (length a)) =
  (λ i, (pre ++ a) !!! i) <$> filter (λ i, p i = true) (seq (length pre) (length a)).
Proof.
  revert pre. induction a as [|x a IH]; intros pre; [done|].
  simpl. rewrite filter_cons.
  specialize (IH (pre ++ [x])).
  rewrite length_app, Nat.add_1_r, <- app_assoc in IH. simpl in IH.
  destruct (p (length pre)) eqn:Hp.
  - rewrite decide_True by done. simpl.
    f_equal; [by rewrite list_lookup_total_middle | exact IH].
  - rewrite decide_False by congruence. exact IH.
Qed.

Lemma select_fmap_seq {A} `{!Inhabited A} (p : nat → bool) (a : list A) :
  select a (p <$> seq 0 (length a)) =
  (λ i, a !!! i) <$> filter (λ i, p i = true) (seq 0 (length a)).
Proof. apply (select_fmap_seq_from p a []). Qed.

Lemma zip_with_seq {A B C} `{!Inhabited A, !Inhabited B} (h : A → B → C) a b n :
  length a = n → length b = n →
  zip_with h a b = (λ i, h (a !!! i) (b !!! i)) <$> seq 0 n.
Proof.
  intros Ha Hb. apply list_eq. intros i.
  rewrite lookup_zip_with, list_lookup_fmap.
  destruct (decide (i < n)%nat) as [Hi|Hi].
  - rewrite lookup_seq_lt by done. simpl.
    destruct (lookup_lt_is_Some_2 a i) as [x Hx]; [lia|].
    destruct (lookup_lt_is_Some_2 b i) as [y Hy]; [lia|].
    rewrite Hx, Hy. simpl.
    by rewrite (list_lookup_total_correct a i x Hx), (list_lookup_total_correct b i y Hy).
  - rewrite lookup_seq_ge by lia. simpl.
    rewrite (proj2 (lookup_ge_None a i)) by lia. done.
Qed.

(** The elements selected by the mask [a == b], and by its negation. *)
Lemma select_np_eq {A} `{!Inhabited A} (l : list A) (a b : list Z) :
  length a = length l → length b = length l →
  select l (np_eq a b) =
  (λ i, l !!! i) <$> filter (λ i, a !!! i = b !!! i) (seq 0 (length l)).
Proof.
  intros Ha Hb. unfold np_eq. rewrite (zip_with_seq Z.eqb a b (length l)) by done.
  rewrite (select_fmap_seq (λ i, a !!! i =? b !!! i)). f_equal.
  apply list_filter_iff. intros i. apply Z.eqb_eq.
Qed.

Lemma select_np_not_eq {A} `{!Inhabited A} (l : list A) (a b : list Z) :
  length a = length l → length b = length l →
  select l (np_not (np_eq a b)) =
  (λ i, l !!! i) <$> filter (λ i, a !!! i ≠ b !!! i) (seq 0 (length l)).
Proof.
  intros Ha Hb. unfold np_not, np_eq. rewrite (zip_with_seq Z.eqb a b (length l)) by done.
  rewrite <- list_fmap_compose.
  rewrite (select_fmap_seq (negb ∘ (λ i, a !!! i =? b !!! i))). f_equal.
  apply list_filter_iff. intros i. simpl. rewrite negb_true_iff. apply Z.eqb_neq.
Qed.

(** The elements outside a set of indices. *)
Lemma select_not_isin {A} `{!Inhabited A} (l : list A) (idx : list nat) :
  select l (np_not (np_isin (np_arange (length l)) idx)) =
  (λ i, l !!! i) <$> filter (λ i, i ∉ idx) (seq 0 (length l)).
Proof.
  unfold np_not, np_isin, np_arange. rewrite <- list_fmap_compose.
  rewrite (select_fmap_seq (negb ∘ (λ i, bool_decide (i ∈ idx)))). f_equal.
  apply list_filter_iff. intros i. simpl.
  rewrite negb_true_iff, bool_decide_eq_false. done.
Qed.

(** ** Counting *)

Lemma length_filter_complement {A} (P : A → Prop) `{!∀ x, Decision (P x)} (l : list A) :
  (length (filter P l) + length (filter (λ x, ¬ P x) l) = length l)%nat.
Proof.
  rewrite <- length_app. apply Permutation_length, filter_app_complement.
Qed.

Lemma filter_none {A} (P : A → Prop) `{!∀ x, Decision (P x)} (l : list A) :
  Forall (λ x, ¬ P x) l → filter P l = [].
Proof. induction 1 as [|x l Hx _ IH]; [done|]. by rewrite filter_cons_False. Qed.

Lemma length_filter_not_in (idx : list nat) n :
  NoDup idx → Forall (λ i, (i < n)%nat) idx →
  length (filter (λ i, i ∉ idx) (seq 0 n)) = (n - length idx)%nat.
Proof.
  intros Hnd Hrg.
  pose proof (length_filter_complement (λ i, i ∈ idx) (seq 0 n)) as Hsum.
  rewrite length_seq in Hsum.
  assert (Hperm : filter (λ i, i ∈ idx) (seq 0 n) ≡ₚ idx).
  { apply NoDup_Permutation; [apply NoDup_filter, NoDup_seq | done |].
    intros i. rewrite list_elem_of_filter, elem_of_seq.
    rewrite Forall_forall in Hrg. split; [by intros [? _]|].
    intros Hi. split; [done|]. specialize (Hrg i Hi). lia. }
  rewrite (Permutation_length Hperm) in Hsum. lia.
Qed.

Lemma np_sum_ne_count (a b : list Z) idx : ∀ ac bc,
  mapM (λ i, a !! i) idx = Some ac → mapM (λ i, b !! i) idx = Some bc →
  np_sum (np_ne ac bc) = length (filter (λ i, a !!! i ≠ b !!! i) idx).
Proof.
  unfold np_sum, np_ne.
  induction idx as [|i idx IH]; intros ac bc Ha%mapM_Some Hb%mapM_Some.
  - by inversion Ha; inversion Hb.
  - inversion Ha as [|? x ? ac' Hx Ha']; inversion Hb as [|? y ? bc' Hy Hb']; subst.
    simpl. rewrite !filter_cons.
    rewrite (list_lookup_total_correct a i x Hx), (list_lookup_total_correct b i y Hy).
    specialize (IH ac' bc' (proj2 (mapM_Some _ _ _) Ha') (proj2 (mapM_Some _ _ _) Hb')).
    destruct (Z.eqb_spec x y) as [->|Hne]; simpl.
    + case_decide; [congruence | done].
    + case_decide; [simpl; by rewrite IH | done].
Qed.

Lemma np_sum_le (m : list bool) : (np_sum m ≤ length m)%nat.
Proof. apply length_filter. Qed.

Lemma np_sum_ne_same (a : list Z) : np_sum (np_ne a a) = 0%nat.
Proof.
  unfold np_sum, np_ne. induction a as [|x a IH]; [done|].
  simpl. rewrite filter_cons, Z.eqb_refl. exact IH.
Qed.

(** ** Rational error rates *)

Lemma ratio_range (e c : nat) :
  (e ≤ c)%nat → (0 < c)%nat →
  (0 <= inject_Z (Z.of_nat e) / inject_Z (Z.of_nat c))%Q ∧
  (inject_Z (Z.of_nat e) / inject_Z (Z.of_nat c) <= 1)%Q.
Proof.
  intros Hle Hc.
  assert (Hpos : (0 < inject_Z (Z.of_nat c))%Q).
  { change 0%Q with (inject_Z 0). rewrite <- Zlt_Qlt. lia. }
  split.
  - apply Qle_shift_div_l; [done|]. rewrite Qmult_0_l.
    change 0%Q with (inject_Z 0). rewrite <- Zle_Qle. lia.
  - apply Qle_shift_div_r; [done|]. rewrite Qmult_1_l.
    rewrite <- Zle_Qle. lia.
Qed.

Lemma ratio_zero (c : nat) : (inject_Z (Z.of_nat 0) / inject_Z (Z.of_nat c) == 0)%Q.
Proof. unfold Qdiv. simpl. apply Qmult_0_l. Qed.

(** ** Elementwise operations, position by position *)

Lemma lookup_total_np_and (a b : list bool) i :
  (i < length a)%nat → (i < length b)%nat → np_and a b !!! i = a !!! i && b !!! i.
Proof. intros. unfold np_and. by apply lookup_total_zip_with. Qed.

Lemma lookup_total_np_ne (a b : list Z) i :
  (i < length a)%nat → (i < length b)%nat → np_ne a b !!! i = negb (a !!! i =? b !!! i).
Proof.
  intros. unfold np_ne.
  by apply (lookup_total_zip_with (λ x y : Z, negb (x =? y))).
Qed.

Lemma lookup_total_flip_where (mask : list bool) (a : list Z) i :
  (i < length mask)%nat → (i < length a)%nat →
  flip_where mask a !!! i = if (mask !!! i : bool) then 1 - a !!! i else a !!! i.
Proof.
  intros. unfold flip_where.
  by apply (lookup_total_zip_with (λ (m : bool) (b : Z), if m then 1 - b else b)).
Qed.

Lemma lookup_np_eq_true (a b : list Z) i :
  (i < length a)%nat → (i < length b)%nat → a !!! i = b !!! i →
  np_eq a b !! i = Some true.
Proof.
  intros Ha Hb Heq. unfold np_eq. rewrite lookup_zip_with.
  destruct (lookup_lt_is_Some_2 a i Ha) as [x Hx].
  destruct (lookup_lt_is_Some_2 b i Hb) as [y Hy].
  rewrite Hx, Hy. simpl.
  rewrite (list_lookup_total_correct a i x Hx), (list_lookup_total_correct b i y Hy) in Heq.
  subst. by rewrite Z.eqb_refl.
Qed.

(** ** Scalar draws in a list of draws *)

Lemma scalar_draws_app ds1 ds2 :
  scalar_draws (ds1 ++ ds2) = scalar_draws ds1 ++ scalar_draws ds2.
Proof. apply omap_app. Qed.

Lemma scalar_draws_randint l : scalar_draws (DrawRandint <$> l) = l.
Proof.
  unfold scalar_draws. induction l as [|x l IH]; [done|].
  simpl. f_equal. exact IH.
Qed.

(** ** The returned pair *)

Lemma Qltb_lt x y : Qltb x y = true ↔ (x < y)%Q.
Proof.
  unfold Qltb. rewrite negb_true_iff. split.
  - intros H. apply Qnot_le_lt. intros Hle%Qle_bool_iff. congruence.
  - intros H. destruct (Qle_bool y x) eqn:E; [|done].
    apply Qle_bool_iff in E. by apply Qlt_not_le in H.
Qed.

Lemma exec_run_qkd_protocol R cfg eavesdropper_present g :
  result (exec R (run_qkd_protocol cfg eavesdropper_present) g) =
    match result (exec R (run_qkd_protocol_frame cfg eavesdropper_present) g) with
    | inl e => inl e
    | inr f => inr (returned f)
    end ∧
  draws (exec R (run_qkd_protocol cfg eavesdropper_present) g) =
    draws (exec R (run_qkd_protocol_frame cfg eavesdropper_present) g) ∧
  stdout (exec R (run_qkd_protocol cfg eavesdropper_present) g) =
    stdout (exec R (run_qkd_protocol_frame cfg eavesdropper_present) g).
Proof.
  unfold run_qkd_protocol. rewrite exec_fmap. unfold and_then.
  destruct (result (exec R (run_qkd_protocol_frame cfg eavesdropper_present) g));
    simpl; by rewrite ?app_nil_r.
Qed.

(** A call on a lawful source with a non-negative photon count returns,
    and its frame is as [frame_ok] describes. *)
Lemma run_returns R cfg eavesdropper_present g :
  Lawful R → 0 ≤ NUM_PHOTONS cfg →
  ∃ f,
    result (exec R (run_qkd_protocol_frame cfg eavesdropper_present) g) = inr f ∧
    result (exec R (run_qkd_protocol cfg eavesdropper_present) g) = inr (returned f) ∧
    frame_ok cfg eavesdropper_present f
      (draws (exec R (run_qkd_protocol cfg eavesdropper_present) g)) ∧
    stdout (exec R (run_qkd_protocol cfg eavesdropper_present) g) = [].
Proof.
  intros HR HN.
  destruct (run_frame_ok R HR cfg HN eavesdropper_present g) as (f & Hf & Hok & Hout).
  destruct (exec_run_qkd_protocol R cfg eavesdropper_present g) as (Hr & Hd & Hs).
  exists f. rewrite Hr, Hd, Hs, Hf. done.
Qed.

(** The security-check part of [frame_ok], unpacked. *)
Lemma frame_check_ok cfg eavesdropper_present f ds c :
  frame_ok cfg eavesdropper_present f ds → check f = Some c →
  sifted_length f ≠ 0%nat ∧
  CHECK_SIZE c = (sifted_length f / 4)%nat ∧
  length (check_indices c) = CHECK_SIZE c ∧
  NoDup (check_indices c) ∧
  Forall (λ i, (i < sifted_length f)%nat) (check_indices c) ∧
  mapM (λ i, alice_sifted_key f !! i) (check_indices c) = Some (alice_check c) ∧
  mapM (λ i, bob_sifted_key f !! i) (check_indices c) = Some (bob_check c) ∧
  errors c = np_sum (np_ne (alice_check c) (bob_check c)) ∧
  qber c = (if (0 <? CHECK_SIZE c)%nat
            then (inject_Z (Z.of_nat (errors c)) / inject_Z (Z.of_nat (CHECK_SIZE c)))%Q
            else 0%Q) ∧
  remaining_key c =
    select (alice_sifted_key f)
      (np_not (np_isin (np_arange (sifted_length f)) (check_indices c))) ∧
  returned f = decide_key cfg (qber c) (remaining_key c).
Proof.
  intros Hok Hc. destruct (ok_draws _ _ _ _ Hok) as (eds & cds & _ & _ & Hcheck).
  unfold check_ok in Hcheck. rewrite Hc in Hcheck. tauto.
Qed.

Lemma frame_check_none cfg eavesdropper_present f ds :
  frame_ok cfg eavesdropper_present f ds →
  (check f = None ↔ sifted_length f = 0%nat) ∧
  (check f = None → returned f = (None, "Key failure due to sifting.")).
Proof.
  intros Hok. destruct (ok_draws _ _ _ _ Hok) as (eds & cds & _ & _ & Hcheck).
  unfold check_ok in Hcheck. destruct (check f) as [c|].
  - split; [|done]. split; [done|]. intros H0. tauto.
  - tauto.
Qed.

(** The driver prints its report around one call. *)
Example main_prints_report :
  stdout (exec Tape (main demo_config) (DrawPyChoice true :: demo_tape_eve)) =
    ["## 🔒 QKD Eavesdropper Detection Simulation (Random Case)";
     "--- Running Simulation: *EAVESDROPPER PRESENT* ---";
     "--------------------------------------------------";
     "🚨 Eavesdropper detected (QBER: 100.00%). The quantum disturbance proves intrusion, so the key is discarded and the conversation is cut.";
     "--------------------------------------------------"].
Proof. reflexivity. Qed.

(** ** Programs that never print *)

Lemma silent_stdout R {A} (p : py A) : ∀ g, silent p → stdout (exec R p g) = [].
Proof.
  induction p as [a|e|n k IH|n k IH|k IH|a size k IH|k IH|s k IH]; intros g Hs;
    simpl in *; try done.
  - destruct (src_randint_vec R n g) as [v g']. simpl. by apply IH.
  - destruct (src_rand_vec R n g) as [v g']. simpl. by apply IH.
  - destruct (src_randint R g) as [v g']. simpl. by apply IH.
  - destruct (src_choice R a size g) as [v g']. simpl. by apply IH.
  - destruct (src_py_choice R g) as [v g']. simpl. by apply IH.
Qed.

Lemma silent_bind {A B} (m : py A) (f : A → py B) :
  silent m → (∀ a, silent (f a)) → silent (m ≫= f).
Proof.
  unfold mbind, py_mbind.
  induction m as [a|e|n k IH|n k IH|k IH|a size k IH|k IH|s k IH]; intros Hm Hf;
    simpl in *; auto.
Qed.

Lemma silent_fmap {A B} (h : A → B) (m : py A) : silent m → silent (h <$> m).
Proof. intros Hm. by apply (silent_bind m (λ a, Ret (h a))). Qed.

Lemma silent_for_each {S} idx (body : nat → S → py S) :
  (∀ i s, silent (body i s)) → ∀ s, silent (for_each idx body s).
Proof.
  intros Hb. induction idx as [|i idx IH]; intros s; simpl; [done|].
  by apply silent_bind.
Qed.

Lemma silent_np_random_randint_vec N : silent (np_random_randint_vec N).
Proof. unfold np_random_randint_vec. by destruct (N <? 0). Qed.

Lemma silent_np_random_rand N : silent (np_random_rand N).
Proof. unfold np_random_rand. by destruct (N <? 0). Qed.

Lemma silent_np_random_choice a size : silent (np_random_choice a size).
Proof. unfold np_random_choice. by destruct (a <? size)%nat. Qed.

Lemma silent_getitem {A} (a : list A) i : silent (getitem a i).
Proof. unfold getitem. by destruct (a !! i). Qed.

Lemma silent_setitem {A} (a : list A) i x : silent (setitem a i x).
Proof. unfold setitem. by destruct (i <? length a)%nat. Qed.

Lemma silent_getitem_mask {A} (a : list A) mask : silent (getitem_mask a mask).
Proof. unfold getitem_mask. by destruct (length mask =? length a)%nat. Qed.

Lemma silent_setitem_mask {A} (a : list A) mask vals : silent (setitem_mask a mask vals).
Proof.
  unfold setitem_mask.
  by destruct (length mask =? length a)%nat, (length vals =? length (select a mask))%nat.
Qed.

Lemma silent_getitem_indices {A} (a : list A) idx : silent (getitem_indices a idx).
Proof. unfold getitem_indices. by destruct (mapM _ idx). Qed.

Lemma silent_measure mask received i bob : silent (measure mask received i bob).
Proof.
  unfold measure. apply silent_bind; [apply silent_getitem|]. intros [].
  - apply silent_bind; [apply silent_getitem | intros; apply silent_setitem].
  - apply silent_bind; [done | intros; apply silent_setitem].
Qed.

Lemma silent_eavesdrop cfg ab rb : silent (eavesdrop cfg ab rb).
Proof.
  unfold eavesdrop.
  apply silent_bind; [apply silent_np_random_randint_vec | intros eb].
  apply silent_bind; [apply silent_np_random_rand | intros r].
  apply silent_bind; [apply silent_getitem_mask | intros hit].
  apply silent_bind; [apply silent_setitem_mask | done].
Qed.

Lemma silent_run_qkd_protocol_frame cfg eavesdropper_present :
  silent (run_qkd_protocol_frame cfg eavesdropper_present).
Proof.
  unfold run_qkd_protocol_frame.
  apply silent_bind; [apply silent_np_random_randint_vec | intros abits].
  apply silent_bind; [apply silent_np_random_randint_vec | intros abases].
  apply silent_bind; [apply silent_np_random_randint_vec | intros bbases].
  apply silent_bind; [destruct eavesdropper_present; [apply silent_eavesdrop | done]|].
  intros [rb ev].
  apply silent_bind; [apply silent_for_each, silent_measure | intros bob].
  apply silent_bind; [apply silent_getitem_mask | intros asift].
  apply silent_bind; [apply silent_getitem_mask | intros bsift].
  destruct (length asift =? 0)%nat; [done|].
  apply silent_bind; [apply silent_np_random_choice | intros ci].
  apply silent_bind; [apply silent_getitem_indices | intros ac].
  apply silent_bind; [apply silent_getitem_indices | intros bc].
  apply silent_bind; [apply silent_getitem_mask | done].
Qed.

Lemma silent_run_qkd_protocol cfg eavesdropper_present :
  silent (run_qkd_protocol cfg eavesdropper_present).
Proof. apply silent_fmap, silent_run_qkd_protocol_frame. Qed.

(** ** A negative photon count *)

Lemma exec_negative_photons R cfg eavesdropper_present g :
  NUM_PHOTONS cfg < 0 →
  result (exec R (run_qkd_protocol cfg eavesdropper_present) g) = inl ValueError ∧
  draws (exec R (run_qkd_protocol cfg eavesdropper_present) g) = [].
Proof.
  intros HN. unfold run_qkd_protocol, run_qkd_protocol_frame, np_random_randint_vec.
  destruct (Z.ltb_spec (NUM_PHOTONS cfg) 0) as [_|]; [|lia]. done.
Qed.

(** ** Interception probabilities outside [0, 1] *)

Lemma np_lt_all_true (r : list Q) (p : Q) :
  Forall (λ x, (0 <= x)%Q ∧ (x < 1)%Q) r → (1 <= p)%Q →
  Forall (λ m, m = true) (np_lt r p).
Proof.
  intros Hr Hp. unfold np_lt. apply Forall_fmap. eapply Forall_impl; [exact Hr|].
  intros x [_ Hx]. simpl. apply Qltb_lt. by apply Qlt_le_trans with 1%Q.
Qed.

Lemma np_lt_all_false (r : list Q) (p : Q) :
  Forall (λ x, (0 <= x)%Q ∧ (x < 1)%Q) r → (p <= 0)%Q →
  Forall (λ m, m = false) (np_lt r p).
Proof.
  intros Hr Hp. unfold np_lt. apply Forall_fmap. eapply Forall_impl; [exact Hr|].
  intros x [Hx _]. simpl. destruct (Qltb x p) eqn:E; [|done].
  apply Qltb_lt in E. exfalso. apply (Qlt_not_le _ _ E). by apply Qle_trans with 0%Q.
Qed.

(** ** The printed percentage *)

(** [float64] against the doubles of the machine.  The module's 1000
    photons give a check sample of 250 bits at most; for every such
    sample and every number of errors in it, [percent] is the double that
    the machine computes for [errors / CHECK_SIZE * 100]. *)
Lemma percent_is_machine_percent (errors CHECK_SIZE : nat) :
  (0 < CHECK_SIZE)%nat → (CHECK_SIZE ≤ 250)%nat → (errors ≤ CHECK_SIZE)%nat →
  ∃ q, float_value (machine_percent errors CHECK_SIZE) = Some q ∧
       (q == percent (inject_Z (Z.of_nat errors) / inject_Z (Z.of_nat CHECK_SIZE)))%Q.
Proof.
  intros Hpos Hmax Herr.
  assert (Hall : forallb (λ c, forallb (λ e, percent_agrees e c) (seq 0 (S c)))
                   (seq 1 250) = true) by (vm_compute; reflexivity).
  rewrite forallb_forall in Hall.
  specialize (Hall CHECK_SIZE). rewrite forallb_forall in Hall.
  assert (Hagree : percent_agrees errors CHECK_SIZE = true).
  { apply Hall; apply in_seq; lia. }
  unfold percent_agrees in Hagree.
  destruct (float_value (machine_percent errors CHECK_SIZE)) as [q|]; [|done].
  exists q. split; [done|]. by apply Qeq_bool_iff.
Qed.

(** The texts of some error rates.  The rounding of the two float
    operations shows in the last digit of the first five. *)
Example format_percent_examples :
  format_2f (percent (49 # 160)) = "30.63" ∧
  format_2f (percent (23 # 160)) = "14.37" ∧
  format_2f (percent (51 # 160)) = "31.87" ∧
  format_2f (percent (87 # 160)) = "54.37" ∧
  format_2f (percent (93 # 160)) = "58.13" ∧
  format_2f (percent (1 # 8)) = "12.50" ∧
  format_2f (percent (11 # 100)) = "11.00" ∧
  format_2f (percent 1) = "100.00" ∧
  format_2f (percent 0) = "0.00".
Proof. repeat split; vm_compute; reflexivity. Qed.

Example decide_key_texts :
  decide_key module_config (49 # 160) [1; 0] =
    (None,
     "🚨 Eavesdropper detected (QBER: 30.63%). The quantum disturbance proves intrusion, so the key is discarded and the conversation is cut.") ∧
  decide_key module_config (2 # 25) [1; 0; 1; 1; 0; 0; 1; 0; 1; 1; 1; 0] =
    (Some [1; 0; 1; 1; 0; 0; 1; 0; 1; 1; 1; 0],
     "✅ Key is SECURE (QBER: 8.00%). The low error rate confirms no intrusion, and the remaining key is successfully generated (1011001011...).").
Proof. split; vm_compute; reflexivity. Qed.

(** * The claims *)



(** C2.  Whenever sifting succeeds, [CHECK_SIZE] is
    [sifted_length // 4] and [qber] is the number of sampled positions
    where the two sifted keys disagree divided by [CHECK_SIZE], or 0 when
    [CHECK_SIZE] is 0; in all cases [qber] lies in [0, 1]. *)
Theorem qber_is_sample_error_rate R cfg eavesdropper_present g :
  Lawful R → 0 ≤ NUM_PHOTONS cfg →
  ∃ f,
    result (exec R (run_qkd_protocol_frame cfg eavesdropper_present) g) = inr f ∧
    (sifted_length f ≠ 0%nat → is_Some (check f)) ∧
    ∀ c, check f = Some c →
      CHECK_SIZE c = (sifted_length f / 4)%nat ∧
      length (check_indices c) = CHECK_SIZE c ∧
      errors c = disagreements f c ∧
      qber c =
        (if decide (CHECK_SIZE c = 0%nat) then 0%Q
         else (inject_Z (Z.of_nat (disagreements f c))
               / inject_Z (Z.of_nat (CHECK_SIZE c)))%Q) ∧
      (0 <= qber c)%Q ∧ (qber c <= 1)%Q.
Proof.
  intros HR HN.
  destruct (run_returns R cfg eavesdropper_present g HR HN) as (f & Hf & _ & Hok & _).
  exists f. split; [done|]. split.
  { intros Hsl. destruct (check f) eqn:Hc; [by eexists|].
    destruct (frame_check_none _ _ _ _ Hok) as [[H0 _] _]. by apply H0 in Hc. }
  intros c Hc.
  destruct (frame_check_ok _ _ _ _ _ Hok Hc)
    as (_ & Hsize & Hlen & _ & _ & Hac & Hbc & Herr & Hq & _).
  assert (Hcount : errors c = disagreements f c).
  { rewrite Herr. by apply np_sum_ne_count. }
  assert (Hle : (errors c ≤ CHECK_SIZE c)%nat).
  { rewrite Herr, <- Hlen, (length_mapM _ _ _ Hac).
    etrans; [apply np_sum_le|]. unfold np_ne. rewrite length_zip_with. lia. }
  split_and!; try done.
  - rewrite Hq, <- Hcount.
    destruct (Nat.ltb_spec 0 (CHECK_SIZE c)); case_decide; done || lia.
  - rewrite Hq. destruct (Nat.ltb_spec 0 (CHECK_SIZE c)); [|done].
    by apply ratio_range.
  - rewrite Hq. destruct (Nat.ltb_spec 0 (CHECK_SIZE c)); [|done].
    by apply ratio_range.
Qed.

Lemma qber_is_sample_error_rate_witness :
  Lawful Tape ∧ 0 ≤ NUM_PHOTONS demo_config ∧
  ∃ f c,
    result (exec Tape (run_qkd_protocol_frame demo_config true) demo_tape_eve) = inr f ∧
    check f = Some c ∧ sifted_length f = 5%nat ∧ CHECK_SIZE c = 1%nat ∧
    errors c = disagreements f c ∧ (0 <= qber c)%Q ∧ (qber c <= 1)%Q.
Proof.
  split; [exact Tape_lawful|]. split; [vm_compute; discriminate|].
  destruct (qber_is_sample_error_rate Tape demo_config true demo_tape_eve Tape_lawful)
    as (f & Hf & _ & Hspec); [vm_compute; discriminate|].
  vm_compute in Hf. injection Hf as <-.
  eexists _, _. split; [reflexivity|]. split; [reflexivity|].
  destruct (Hspec _ eq_refl) as (_ & _ & Herr & _ & H0 & H1).
  split; [reflexivity|]. split; [reflexivity|]. by split_and!.
Defined.

(** C3.  [received_bits] equals [alice_bits] at every position, except
    that with an eavesdropper the bit is complemented exactly where
    [intercept_mask] holds and [alice_bases] differs from [eve_bases];
    without an eavesdropper the two streams are equal everywhere. *)
Theorem received_bits_flipped_on_error_mask R cfg eavesdropper_present g :
  Lawful R → 0 ≤ NUM_PHOTONS cfg →
  ∃ f,
    result (exec R (run_qkd_protocol_frame cfg eavesdropper_present) g) = inr f ∧
    length (received_bits f) = Z.to_nat (NUM_PHOTONS cfg) ∧
    (is_Some (eve f) ↔ eavesdropper_present = true) ∧
    ∀ i, (i < Z.to_nat (NUM_PHOTONS cfg))%nat →
      is_bit (alice_bits f !!! i) ∧
      match eve f with
      | None => received_bits f !!! i = alice_bits f !!! i
      | Some e =>
          eve_error_mask e !!! i =
            (intercept_mask e !!! i && negb (alice_bases f !!! i =? eve_bases e !!! i)) ∧
          received_bits f !!! i =
            (if (eve_error_mask e !!! i : bool) then 1 - alice_bits f !!! i
             else alice_bits f !!! i)
      end.
Proof.
  intros HR HN.
  destruct (run_returns R cfg eavesdropper_present g HR HN) as (f & Hf & _ & Hok & _).
  exists f. split; [done|].
  destruct (ok_draws _ _ _ _ Hok) as (eds & cds & _ & Heve & _).
  pose proof (ok_alice_bits _ _ _ _ Hok) as Hbits.
  pose proof (ok_alice_bases _ _ _ _ Hok) as Hbases.
  unfold eve_ok in Heve.
  assert (Hlen : length (received_bits f) = Z.to_nat (NUM_PHOTONS cfg) ∧
    ∀ i, (i < Z.to_nat (NUM_PHOTONS cfg))%nat →
      match eve f with
      | None => received_bits f !!! i = alice_bits f !!! i
      | Some e =>
          eve_error_mask e !!! i =
            (intercept_mask e !!! i && negb (alice_bases f !!! i =? eve_bases e !!! i)) ∧
          received_bits f !!! i =
            (if (eve_error_mask e !!! i : bool) then 1 - alice_bits f !!! i
             else alice_bits f !!! i)
      end).
  { destruct (eve f) as [e|].
    - destruct Heve as (r & _ & Heb & Hr & _ & Him & Hem & Hrb).
      assert (Hlim : length (intercept_mask e) = Z.to_nat (NUM_PHOTONS cfg)).
      { rewrite Him. unfold np_lt. by rewrite length_fmap. }
      assert (Hlne : length (np_ne (alice_bases f) (eve_bases e)) = Z.to_nat (NUM_PHOTONS cfg)).
      { unfold np_ne. rewrite length_zip_with. lia. }
      assert (Hlem : length (eve_error_mask e) = Z.to_nat (NUM_PHOTONS cfg)).
      { rewrite Hem. unfold np_and. rewrite length_zip_with. lia. }
      split.
      + rewrite Hrb, length_flip_where; lia.
      + intros i Hi. split.
        * rewrite Hem at 1. rewrite lookup_total_np_and by lia.
          by rewrite lookup_total_np_ne by lia.
        * rewrite Hrb. by rewrite lookup_total_flip_where by lia.
    - destruct Heve as (_ & ->). done. }
  destruct Hlen as [Hlen Hpt].
  split; [done|]. split; [apply (ok_eve_present _ _ _ _ Hok)|].
  intros i Hi. split; [|by apply Hpt].
  apply Forall_lookup_total_1; [apply (ok_alice_bits_bit _ _ _ _ Hok) | lia].
Qed.

Lemma received_bits_flipped_on_error_mask_witness :
  Lawful Tape ∧ 0 ≤ NUM_PHOTONS demo_config ∧
  ∃ f e,
    result (exec Tape (run_qkd_protocol_frame demo_config true) demo_tape_eve) = inr f ∧
    eve f = Some e ∧
    eve_error_mask e !!! 0%nat = true ∧
    received_bits f !!! 0%nat = 1 - alice_bits f !!! 0%nat ∧
    eve_error_mask e !!! 1%nat = false ∧
    received_bits f !!! 1%nat = alice_bits f !!! 1%nat.
Proof.
  split; [exact Tape_lawful|]. split; [vm_compute; discriminate|].
  destruct (received_bits_flipped_on_error_mask Tape demo_config true demo_tape_eve Tape_lawful)
    as (f & Hf & _ & _ & Hspec); [vm_compute; discriminate|].
  vm_compute in Hf. injection Hf as <-.
  eexists _, _. split; [reflexivity|]. split; [reflexivity|].
  split; [reflexivity|]. split.
  - destruct (Hspec 0%nat) as (_ & _ & H); [vm_compute; lia|]. exact H.
  - split; [reflexivity|].
    destruct (Hspec 1%nat) as (_ & _ & H); [vm_compute; lia|]. exact H.
Defined.

(** The draws of a call, by kind: the eavesdropper's and the check's
    draws contain no scalar draw, and only the check draws a sample. *)
Lemma frame_scalar_draws cfg eavesdropper_present f ds :
  frame_ok cfg eavesdropper_present f ds →
  scalar_draws ds = (λ i, bob_bits f !!! i) <$> mismatched f.
Proof.
  intros Hok. destruct (ok_draws _ _ _ _ Hok) as (eds & cds & -> & Heve & Hcheck).
  assert (Heds : scalar_draws eds = []).
  { unfold eve_ok in Heve. destruct (eve f).
    - by destruct Heve as (r & -> & _).
    - by destruct Heve as [-> _]. }
  assert (Hcds : scalar_draws cds = []).
  { unfold check_ok in Hcheck. destruct (check f).
    - by destruct Hcheck as (-> & _).
    - by destruct Hcheck as (-> & _). }
  rewrite !scalar_draws_app, Heds, Hcds, scalar_draws_randint, app_nil_r. simpl.
  rewrite (ok_match_mask _ _ _ _ Hok). unfold mismatched.
  pose proof (ok_alice_bases _ _ _ _ Hok) as Hab.
  pose proof (ok_bob_bases _ _ _ _ Hok) as Hbb.
  pose proof (ok_bob_bits _ _ _ _ Hok) as Hbob.
  rewrite select_np_not_eq by lia. by rewrite Hab, Hbob.
Qed.

(** C4.  At every position where Alice's and Bob's bases agree, Bob's
    bit is the received bit; at every other position it is the answer to
    a scalar draw [np.random.randint(0, 2)] of its own, made in position
    order.  Those bits are not a function of the received stream or of
    the eavesdropper's locals: two runs can agree on all of these and
    differ in Bob's bits. *)
Theorem bob_bits_measured_or_drawn R cfg eavesdropper_present g :
  (Lawful R → 0 ≤ NUM_PHOTONS cfg →
   ∃ f,
     result (exec R (run_qkd_protocol_frame cfg eavesdropper_present) g) = inr f ∧
     length (bob_bits f) = Z.to_nat (NUM_PHOTONS cfg) ∧
     (∀ i, (i < Z.to_nat (NUM_PHOTONS cfg))%nat →
        alice_bases f !!! i = bob_bases f !!! i →
        bob_bits f !!! i = received_bits f !!! i) ∧
     scalar_draws (draws (exec R (run_qkd_protocol cfg eavesdropper_present) g)) =
       (λ i, bob_bits f !!! i) <$> mismatched f ∧
     Forall is_bit ((λ i, bob_bits f !!! i) <$> mismatched f)) ∧
  (∃ t1 t2 f1 f2,
     result (exec Tape (run_qkd_protocol_frame demo_config true) t1) = inr f1 ∧
     result (exec Tape (run_qkd_protocol_frame demo_config true) t2) = inr f2 ∧
     alice_bits f1 = alice_bits f2 ∧ alice_bases f1 = alice_bases f2 ∧
     bob_bases f1 = bob_bases f2 ∧ eve f1 = eve f2 ∧
     received_bits f1 = received_bits f2 ∧
     (λ i, bob_bits f1 !!! i) <$> mismatched f1 ≠ (λ i, bob_bits f2 !!! i) <$> mismatched f2).
Proof.
  split; [|by exists demo_tape_eve, demo_tape_eve_noise; eexists _, _; split_and!].
  intros HR HN.
  destruct (run_returns R cfg eavesdropper_present g HR HN) as (f & Hf & _ & Hok & _).
  exists f. split; [done|].
  pose proof (ok_alice_bases _ _ _ _ Hok) as Hab.
  pose proof (ok_bob_bases _ _ _ _ Hok) as Hbb.
  pose proof (ok_bob_bits _ _ _ _ Hok) as Hbob.
  split; [done|]. split_and!.
  - intros i Hi Heq. rewrite !list_lookup_total_alt. f_equal.
    apply (ok_bob_match _ _ _ _ Hok). rewrite (ok_match_mask _ _ _ _ Hok).
    apply lookup_np_eq_true; [lia | lia | done].
  - by apply (frame_scalar_draws cfg eavesdropper_present).
  - pose proof (ok_bob_noise _ _ _ _ Hok) as Hnoise.
    rewrite (ok_match_mask _ _ _ _ Hok), select_np_not_eq in Hnoise by lia.
    unfold mismatched. by rewrite Hab, <- Hbob.
Qed.

Lemma bob_bits_measured_or_drawn_witness :
  Lawful Tape ∧ 0 ≤ NUM_PHOTONS demo_config ∧
  ∃ f,
    result (exec Tape (run_qkd_protocol_frame demo_config true) demo_tape_eve) = inr f ∧
    mismatched f = [1; 4; 7]%nat ∧
    bob_bits f !!! 0%nat = received_bits f !!! 0%nat ∧
    scalar_draws (draws (exec Tape (run_qkd_protocol demo_config true) demo_tape_eve)) =
      [bob_bits f !!! 1%nat; bob_bits f !!! 4%nat; bob_bits f !!! 7%nat].
Proof.
  split; [exact Tape_lawful|]. split; [vm_compute; discriminate|].
  destruct (bob_bits_measured_or_drawn Tape demo_config true demo_tape_eve) as [Hrun _].
  destruct Hrun as (f & Hf & _ & Hmatch & Hdraws & _);
    [exact Tape_lawful | vm_compute; discriminate |].
  vm_compute in Hf. injection Hf as <-.
  eexists. split; [reflexivity|]. split; [reflexivity|]. split.
  - apply Hmatch; [vm_compute; lia | reflexivity].
  - exact Hdraws.
Defined.

(** C5.  When no position has matching bases (in particular when there
    are no photons at all) the call returns exactly
    [(None, "Key failure due to sifting.")] without raising, and neither
    the security check nor the decision is run. *)
Theorem empty_sift_is_key_failure R cfg eavesdropper_present g :
  Lawful R → 0 ≤ NUM_PHOTONS cfg →
  ∃ f,
    result (exec R (run_qkd_protocol_frame cfg eavesdropper_present) g) = inr f ∧
    result (exec R (run_qkd_protocol cfg eavesdropper_present) g) = inr (returned f) ∧
    sifted_length f = length (matched f) ∧
    (NUM_PHOTONS cfg = 0 → sifted_length f = 0%nat) ∧
    ((∀ i, (i < Z.to_nat (NUM_PHOTONS cfg))%nat →
        alice_bases f !!! i ≠ bob_bases f !!! i) → sifted_length f = 0%nat) ∧
    (sifted_length f = 0%nat →
       returned f = (None, "Key failure due to sifting.") ∧
       check f = None ∧
       ∀ a size v,
         DrawChoice a size v ∉ draws (exec R (run_qkd_protocol cfg eavesdropper_present) g)).
Proof.
  intros HR HN.
  destruct (run_returns R cfg eavesdropper_present g HR HN) as (f & Hf & Hr & Hok & _).
  exists f. split; [done|]. split; [done|].
  pose proof (ok_alice_bits _ _ _ _ Hok) as Hbits.
  pose proof (ok_alice_bases _ _ _ _ Hok) as Hab.
  pose proof (ok_bob_bases _ _ _ _ Hok) as Hbb.
  assert (Hsl : sifted_length f = length (matched f)).
  { rewrite (ok_sifted_length _ _ _ _ Hok), (ok_alice_sifted _ _ _ _ Hok),
      (ok_sift_mask _ _ _ _ Hok).
    rewrite select_np_eq by lia. rewrite length_fmap. unfold matched.
    by rewrite Hbits, Hab. }
  split; [done|]. split_and!.
  - intros H0. rewrite Hsl. unfold matched. rewrite Hab, H0. done.
  - intros Hne. rewrite Hsl. unfold matched. rewrite Hab.
    assert (Hnil : filter (λ i, alice_bases f !!! i = bob_bases f !!! i)
                     (seq 0 (Z.to_nat (NUM_PHOTONS cfg))) = []); [|by rewrite Hnil].
    apply filter_none, Forall_forall. intros i Hi%elem_of_seq.
    apply Hne. lia.
  - intros H0.
    destruct (frame_check_none _ _ _ _ Hok) as [[_ Hnone] Hret].
    specialize (Hnone H0). split; [by apply Hret|]. split; [done|].
    intros a size v Hin.
    destruct (ok_draws _ _ _ _ Hok) as (eds & cds & Hds & Heve & Hcheck).
    unfold check_ok in Hcheck. rewrite Hnone in Hcheck. destruct Hcheck as (-> & _).
    rewrite Hds in Hin. rewrite app_nil_r in Hin.
    rewrite !elem_of_app, !elem_of_cons, list_elem_of_fmap in Hin.
    destruct Hin as [Hin|[Hin|Hin]].
    + rewrite elem_of_nil in Hin. by destruct Hin as [?|[?|[?|?]]].
    + unfold eve_ok in Heve. destruct (eve f).
      * destruct Heve as (r & -> & _). rewrite !elem_of_cons, elem_of_nil in Hin.
        by destruct Hin as [?|[?|?]].
      * destruct Heve as [-> _]. by rewrite elem_of_nil in Hin.
    + by destruct Hin as (? & ? & _).
Qed.

Lemma empty_sift_is_key_failure_witness :
  Lawful Tape ∧ 0 ≤ NUM_PHOTONS demo_config ∧
  ∃ f,
    result (exec Tape (run_qkd_protocol_frame demo_config false) demo_tape_no_match) = inr f ∧
    sifted_length f = 0%nat ∧
    result (exec Tape (run_qkd_protocol demo_config false) demo_tape_no_match) =
      inr (None, "Key failure due to sifting.").
Proof.
  split; [exact Tape_lawful|]. split; [vm_compute; discriminate|].
  destruct (empty_sift_is_key_failure Tape demo_config false demo_tape_no_match Tape_lawful)
    as (f & Hf & Hr & _ & _ & _ & Hfail); [vm_compute; discriminate|].
  exists f. split; [done|].
  assert (H0 : sifted_length f = 0%nat).
  { vm_compute in Hf. by injection Hf as <-. }
  split; [done|]. rewrite Hr. f_equal. by apply Hfail.
Defined.

(** C6.  Whenever sifting succeeds, the check sample is [CHECK_SIZE]
    distinct indices of the sifted key, and the remaining key is the
    sifted key at the other indices, in order: the two index sets are
    disjoint, together they cover the sifted key, the sifted key is no
    longer than the photon stream, and the remaining key has
    [sifted_length - CHECK_SIZE] bits. *)
Theorem check_sample_partitions_sifted_key R cfg eavesdropper_present g :
  Lawful R → 0 ≤ NUM_PHOTONS cfg →
  ∃ f,
    result (exec R (run_qkd_protocol_frame cfg eavesdropper_present) g) = inr f ∧
    sifted_length f = length (alice_sifted_key f) ∧
    length (bob_sifted_key f) = length (alice_sifted_key f) ∧
    (sifted_length f ≤ Z.to_nat (NUM_PHOTONS cfg))%nat ∧
    ∀ c, check f = Some c →
      CHECK_SIZE c = (sifted_length f / 4)%nat ∧
      length (check_indices c) = CHECK_SIZE c ∧
      NoDup (check_indices c) ∧
      (∀ i, i ∈ check_indices c → (i < sifted_length f)%nat) ∧
      remaining_key c = (λ i, alice_sifted_key f !!! i) <$> remaining_indices f c ∧
      (∀ i, i ∈ check_indices c → i ∉ remaining_indices f c) ∧
      (∀ i, (i < sifted_length f)%nat ↔ i ∈ check_indices c ∨ i ∈ remaining_indices f c) ∧
      length (remaining_key c) = (sifted_length f - CHECK_SIZE c)%nat.
Proof.
  intros HR HN.
  destruct (run_returns R cfg eavesdropper_present g HR HN) as (f & Hf & _ & Hok & _).
  exists f. split; [done|].
  pose proof (ok_sifted_length _ _ _ _ Hok) as Hsl.
  split; [done|]. split.
  { rewrite (ok_bob_sifted _ _ _ _ Hok), (ok_alice_sifted _ _ _ _ Hok).
    apply length_select_same.
    by rewrite (ok_bob_bits _ _ _ _ Hok), (ok_alice_bits _ _ _ _ Hok). }
  split.
  { rewrite Hsl, (ok_alice_sifted _ _ _ _ Hok), <- (ok_alice_bits _ _ _ _ Hok).
    apply length_select_le. }
  intros c Hc.
  destruct (frame_check_ok _ _ _ _ _ Hok Hc)
    as (_ & Hsize & Hlen & Hnd & Hrg & _ & _ & _ & _ & Hrk & _).
  assert (Hrem : remaining_key c =
                 (λ i, alice_sifted_key f !!! i) <$> remaining_indices f c).
  { rewrite Hrk. unfold remaining_indices. rewrite Hsl. apply select_not_isin. }
  split_and!; try done.
  - intros i Hi. rewrite Forall_forall in Hrg. by apply Hrg.
  - intros i Hi. unfold remaining_indices. rewrite list_elem_of_filter. tauto.
  - intros i. unfold remaining_indices. rewrite list_elem_of_filter, elem_of_seq.
    rewrite Forall_forall in Hrg. split.
    + intros Hi. destruct (decide (i ∈ check_indices c)); [by left|].
      right. split; [done | lia].
    + intros [Hi|[_ Hi]]; [by apply Hrg | lia].
  - rewrite Hrem, length_fmap. unfold remaining_indices.
    rewrite length_filter_not_in by done. by rewrite Hlen.
Qed.

Lemma check_sample_partitions_sifted_key_witness :
  Lawful Tape ∧ 0 ≤ NUM_PHOTONS demo_config ∧
  ∃ f c,
    result (exec Tape (run_qkd_protocol_frame demo_config false) demo_tape) = inr f ∧
    check f = Some c ∧
    check_indices c = [2%nat] ∧ remaining_indices f c = [0; 1; 3; 4]%nat ∧
    remaining_key c = (λ i, alice_sifted_key f !!! i) <$> remaining_indices f c ∧
    length (remaining_key c) = (sifted_length f - CHECK_SIZE c)%nat.
Proof.
  split; [exact Tape_lawful|]. split; [vm_compute; discriminate|].
  destruct (check_sample_partitions_sifted_key Tape demo_config false demo_tape Tape_lawful)
    as (f & Hf & _ & _ & _ & Hspec); [vm_compute; discriminate|].
  vm_compute in Hf. injection Hf as <-.
  eexists _, _. split; [reflexivity|]. split; [reflexivity|].
  destruct (Hspec _ eq_refl) as (_ & _ & _ & _ & Hrem & _ & _ & Hlen).
  split; [reflexivity|]. split; [reflexivity|]. by split.
Defined.

(** C9.  Without an eavesdropper Alice's and Bob's sifted keys are
    equal position by position, so the error count and the QBER are 0,
    the rejection for a high QBER cannot happen (for any threshold that is
    not negative), and the only way to get no key is an empty sift. *)
Theorem no_eavesdropper_never_rejected R cfg g :
  Lawful R → 0 ≤ NUM_PHOTONS cfg → (0 <= SECURITY_THRESHOLD cfg)%Q →
  ∃ f,
    result (exec R (run_qkd_protocol_frame cfg false) g) = inr f ∧
    result (exec R (run_qkd_protocol cfg false) g) = inr (returned f) ∧
    received_bits f = alice_bits f ∧
    bob_sifted_key f = alice_sifted_key f ∧
    (∀ c, check f = Some c →
       errors c = 0%nat ∧ (qber c == 0)%Q ∧
       ¬ (SECURITY_THRESHOLD cfg < qber c)%Q ∧
       (returned f).1 = Some (remaining_key c)) ∧
    ((returned f).1 = None →
       sifted_length f = 0%nat ∧ returned f = (None, "Key failure due to sifting.")).
Proof.
  intros HR HN Hthr.
  destruct (run_returns R cfg false g HR HN) as (f & Hf & Hr & Hok & _).
  exists f. split; [done|]. split; [done|].
  assert (Hrb : received_bits f = alice_bits f).
  { destruct (ok_draws _ _ _ _ Hok) as (eds & cds & _ & Heve & _).
    unfold eve_ok in Heve. destruct (eve f) as [e|] eqn:He; [|tauto].
    assert (false = true); [|done].
    apply (ok_eve_present _ _ _ _ Hok). rewrite He. by eexists. }
  assert (Hsift : bob_sifted_key f = alice_sifted_key f).
  { rewrite (ok_bob_sifted _ _ _ _ Hok), (ok_alice_sifted _ _ _ _ Hok).
    assert (Hm : length (sift_mask f) = Z.to_nat (NUM_PHOTONS cfg)).
    { rewrite (ok_sift_mask _ _ _ _ Hok). unfold np_eq. rewrite length_zip_with.
      rewrite (ok_alice_bases _ _ _ _ Hok), (ok_bob_bases _ _ _ _ Hok). lia. }
    apply select_lookup_eq.
    - by rewrite (ok_bob_bits _ _ _ _ Hok).
    - by rewrite (ok_alice_bits _ _ _ _ Hok).
    - intros i Hi. rewrite <- Hrb. apply (ok_bob_match _ _ _ _ Hok).
      by rewrite (ok_match_mask _ _ _ _ Hok), <- (ok_sift_mask _ _ _ _ Hok). }
  split; [done|]. split; [done|].
  assert (Hcheck : ∀ c, check f = Some c →
       errors c = 0%nat ∧ (qber c == 0)%Q ∧
       ¬ (SECURITY_THRESHOLD cfg < qber c)%Q ∧
       (returned f).1 = Some (remaining_key c)).
  { intros c Hc.
    destruct (frame_check_ok _ _ _ _ _ Hok Hc)
      as (_ & _ & _ & _ & _ & Hac & Hbc & Herr & Hq & _ & Hret).
    rewrite Hsift, Hac in Hbc. injection Hbc as Heq.
    rewrite <- Heq, np_sum_ne_same in Herr.
    assert (Hq0 : (qber c == 0)%Q).
    { rewrite Hq, Herr. destruct (0 <? CHECK_SIZE c)%nat; [apply ratio_zero | done]. }
    assert (Hnlt : ¬ (SECURITY_THRESHOLD cfg < qber c)%Q).
    { rewrite Hq0. by apply Qle_not_lt. }
    split_and!; try done.
    rewrite Hret. unfold decide_key.
    destruct (Qltb (SECURITY_THRESHOLD cfg) (qber c)) eqn:E; [|done].
    by apply Qltb_lt in E. }
  split; [done|].
  intros Hnone. destruct (check f) as [c|] eqn:Hc.
  - destruct (Hcheck c eq_refl) as (_ & _ & _ & Hsome). congruence.
  - destruct (frame_check_none _ _ _ _ Hok) as [[H0 _] Hret]. auto.
Qed.

Lemma no_eavesdropper_never_rejected_witness :
  Lawful Tape ∧ 0 ≤ NUM_PHOTONS demo_config ∧ (0 <= SECURITY_THRESHOLD demo_config)%Q ∧
  ∃ f c,
    result (exec Tape (run_qkd_protocol_frame demo_config false) demo_tape) = inr f ∧
    check f = Some c ∧
    bob_sifted_key f = alice_sifted_key f ∧ errors c = 0%nat ∧ (qber c == 0)%Q ∧
    (returned f).1 = Some (remaining_key c).
Proof.
  split; [exact Tape_lawful|]. split; [vm_compute; discriminate|].
  split; [vm_compute; discriminate|].
  destruct (no_eavesdropper_never_rejected Tape demo_config demo_tape Tape_lawful)
    as (f & Hf & _ & _ & Hsift & Hcheck & _); [vm_compute; discriminate..|].
  vm_compute in Hf. injection Hf as <-.
  eexists _, _. split; [reflexivity|]. split; [reflexivity|].
  destruct (Hcheck _ eq_refl) as (Herr & Hq & _ & Hret). by split_and!.
Defined.

(** C7, as stated, fails: a configuration with an interception
    probability of 1.5 and a threshold of -0.5 is not rejected.  The call
    draws its nine answers and returns normally. *)
Lemma config_is_not_validated :
  ¬ valid_config odd_config ∧
  result (exec Tape (run_qkd_protocol odd_config true) demo_tape_eve) =
    inr (None,
         "🚨 Eavesdropper detected (QBER: 100.00%). The quantum disturbance proves intrusion, so the key is discarded and the conversation is cut.") ∧
  length (draws (exec Tape (run_qkd_protocol odd_config true) demo_tape_eve)) = 9%nat.
Proof.
  split; [|split; reflexivity].
  intros (_ & _ & H & _). vm_compute in H. by apply H.
Qed.

(** C7, amended.  The constants are used as they are, without any
    check: a negative photon count is the only configuration on which a
    call fails, with the [ValueError] of the first numpy draw and before
    any answer is drawn; with a photon count of 0 or more every call
    returns normally whatever the probability and the threshold, a
    probability of 1 or more intercepting every photon and one of 0 or
    less none. *)
Theorem only_negative_photon_count_fails R cfg eavesdropper_present g :
  Lawful R →
  (NUM_PHOTONS cfg < 0 →
     result (exec R (run_qkd_protocol cfg eavesdropper_present) g) = inl ValueError ∧
     draws (exec R (run_qkd_protocol cfg eavesdropper_present) g) = []) ∧
  (0 ≤ NUM_PHOTONS cfg →
     ∃ f,
       result (exec R (run_qkd_protocol_frame cfg eavesdropper_present) g) = inr f ∧
       result (exec R (run_qkd_protocol cfg eavesdropper_present) g) = inr (returned f) ∧
       (NUM_PHOTONS cfg = 0 → returned f = (None, "Key failure due to sifting.")) ∧
       ∀ e, eve f = Some e →
         ((1 <= EAVESDROP_PROB cfg)%Q → Forall (λ m, m = true) (intercept_mask e)) ∧
         ((EAVESDROP_PROB cfg <= 0)%Q → Forall (λ m, m = false) (intercept_mask e))).
Proof.
  intros HR. split; [apply exec_negative_photons|].
  intros HN.
  destruct (run_returns R cfg eavesdropper_present g HR HN) as (f & Hf & Hr & Hok & _).
  exists f. split; [done|]. split; [done|]. split.
  - intros H0. apply (frame_check_none _ _ _ _ Hok).
    apply (frame_check_none _ _ _ _ Hok).
    rewrite (ok_sifted_length _ _ _ _ Hok), (ok_alice_sifted _ _ _ _ Hok).
    pose proof (ok_alice_bits _ _ _ _ Hok) as Hbits. rewrite H0 in Hbits.
    by destruct (alice_bits f).
  - intros e He.
    destruct (ok_draws _ _ _ _ Hok) as (eds & cds & _ & Heve & _).
    unfold eve_ok in Heve. rewrite He in Heve.
    destruct Heve as (r & _ & _ & _ & Hrange & -> & _).
    split; intros Hp; [by apply np_lt_all_true | by apply np_lt_all_false].
Qed.

Lemma only_negative_photon_count_fails_witness :
  Lawful Tape ∧
  ∃ f e,
    result (exec Tape (run_qkd_protocol_frame odd_config true) demo_tape_eve) = inr f ∧
    eve f = Some e ∧ (1 <= EAVESDROP_PROB odd_config)%Q ∧
    Forall (λ m, m = true) (intercept_mask e).
Proof.
  split; [exact Tape_lawful|].
  destruct (only_negative_photon_count_fails Tape odd_config true demo_tape_eve Tape_lawful)
    as [_ Hret].
  destruct Hret as (f & Hf & _ & _ & Hclamp); [vm_compute; discriminate|].
  vm_compute in Hf. injection Hf as <-.
  eexists _, _. split; [reflexivity|]. split; [reflexivity|].
  split; [vm_compute; discriminate|].
  apply (Hclamp _ eq_refl). vm_compute; discriminate.
Defined.

(** C10.  The key returned on the accepting branch is made of Alice's
    bits only: her bits at the matched-basis positions, restricted to the
    sifted indices outside the check sample.  Bob's bits at those indices
    can differ from it: with the module's configuration there is a run
    with an eavesdropper whose QBER is below the threshold and whose
    returned key is not what Bob measured. *)
Theorem returned_key_is_alices R cfg eavesdropper_present g :
  (Lawful R → 0 ≤ NUM_PHOTONS cfg →
   ∃ f,
     result (exec R (run_qkd_protocol_frame cfg eavesdropper_present) g) = inr f ∧
     result (exec R (run_qkd_protocol cfg eavesdropper_present) g) = inr (returned f) ∧
     alice_sifted_key f = (λ i, alice_bits f !!! i) <$> matched f ∧
     bob_sifted_key f = (λ i, bob_bits f !!! i) <$> matched f ∧
     ∀ key, (returned f).1 = Some key →
       ∃ c, check f = Some c ∧ key = remaining_key c ∧
            key = (λ i, alice_sifted_key f !!! i) <$> remaining_indices f c) ∧
  (∃ t f c,
     result (exec Tape (run_qkd_protocol_frame module_config true) t) = inr f ∧
     check f = Some c ∧
     (qber c <= SECURITY_THRESHOLD module_config)%Q ∧
     (returned f).1 = Some (remaining_key c) ∧
     (λ i, bob_sifted_key f !!! i) <$> remaining_indices f c ≠ remaining_key c).
Proof.
  split.
  - intros HR HN.
    destruct (run_returns R cfg eavesdropper_present g HR HN) as (f & Hf & Hr & Hok & _).
    exists f. split; [done|]. split; [done|].
    pose proof (ok_alice_bits _ _ _ _ Hok) as Hbits.
    pose proof (ok_alice_bases _ _ _ _ Hok) as Hab.
    pose proof (ok_bob_bases _ _ _ _ Hok) as Hbb.
    pose proof (ok_bob_bits _ _ _ _ Hok) as Hbob.
    split_and!.
    + rewrite (ok_alice_sifted _ _ _ _ Hok), (ok_sift_mask _ _ _ _ Hok).
      rewrite select_np_eq by lia. unfold matched. by rewrite Hbits, Hab.
    + rewrite (ok_bob_sifted _ _ _ _ Hok), (ok_sift_mask _ _ _ _ Hok).
      rewrite select_np_eq by lia. unfold matched. by rewrite Hbob, Hab.
    + intros key Hkey. destruct (check f) as [c|] eqn:Hc.
      * destruct (frame_check_ok _ _ _ _ _ Hok Hc)
          as (_ & _ & _ & _ & _ & _ & _ & _ & _ & Hrk & Hret).
        assert (key = remaining_key c) as ->.
        { rewrite Hret in Hkey. unfold decide_key in Hkey.
          destruct (Qltb _ _); simpl in Hkey; congruence. }
        exists c. split; [done|]. split; [done|].
        rewrite Hrk. unfold remaining_indices.
        rewrite (ok_sifted_length _ _ _ _ Hok). apply select_not_isin.
      * destruct (frame_check_none _ _ _ _ Hok) as [_ Hret].
        rewrite (Hret Hc) in Hkey. done.
  - exists module_tape_eve_missed.
    destruct (result (exec Tape (run_qkd_protocol_frame module_config true)
                        module_tape_eve_missed)) as [e|f] eqn:Hf;
      vm_compute in Hf; [discriminate|].
    injection Hf as <-.
    eexists _, _. split; [reflexivity|]. split; [reflexivity|].
    split; [vm_compute; discriminate|]. split; [reflexivity|].
    intros H. apply (f_equal (λ l, l !! 0%nat)) in H. vm_compute in H. discriminate.
Qed.

Lemma returned_key_is_alices_witness :
  Lawful Tape ∧ 0 ≤ NUM_PHOTONS demo_config ∧
  ∃ f c,
    result (exec Tape (run_qkd_protocol_frame demo_config true) demo_tape_eve_missed) = inr f ∧
    check f = Some c ∧
    (returned f).1 = Some [1; 1; 0; 1] ∧
    (λ i, alice_sifted_key f !!! i) <$> remaining_indices f c = [1; 1; 0; 1] ∧
    (λ i, bob_sifted_key f !!! i) <$> remaining_indices f c = [0; 1; 0; 1].
Proof.
  split; [exact Tape_lawful|]. split; [vm_compute; discriminate|].
  destruct (returned_key_is_alices Tape demo_config true demo_tape_eve_missed) as [Hkey _].
  destruct Hkey as (f & Hf & _ & _ & _ & Hkey); [exact Tape_lawful | vm_compute; discriminate |].
  vm_compute in Hf. injection Hf as <-.
  destruct (Hkey [1; 1; 0; 1] eq_refl) as (c & Hc & _ & Hrem).
  vm_compute in Hc. injection Hc as <-.
  eexists _, _. split; [reflexivity|]. split; [reflexivity|]. split; [reflexivity|].
  split; [symmetry; exact Hrem | reflexivity].
Defined.

(** * Further properties of a call *)

(** ** Facts about frames shared by the properties below *)

Lemma Forall_select {A} (P : A → Prop) (a : list A) mask :
  Forall P a → Forall P (select a mask).
Proof.
  intros H. revert mask. induction H as [|x a Hx _ IH]; intros [|[] mask]; simpl; auto.
Qed.

Lemma filter_ext_in {A} (P Q : A → Prop) `{!∀ x, Decision (P x), !∀ x, Decision (Q x)}
    (l : list A) :
  (∀ x, x ∈ l → P x ↔ Q x) → filter P l = filter Q l.
Proof.
  induction l as [|x l IH]; intros Hext; [done|].
  rewrite !filter_cons.
  assert (Hx : P x ↔ Q x) by (apply Hext; left).
  rewrite IH by (intros y Hy; apply Hext; by right).
  destruct (decide (P x)), (decide (Q x)); tauto.
Qed.

Lemma lookup_total_fmap_positions (h : nat → Z) (l : list nat) j :
  (j < length l)%nat → (h <$> l) !!! j = h (l !!! j).
Proof. apply list_lookup_total_fmap. Qed.

Section frames.
Context (cfg : config) (eavesdropper_present : bool) (f : frame) (ds : list draw).
Context (Hok : frame_ok cfg eavesdropper_present f ds).

Local Abbreviation n := (Z.to_nat (NUM_PHOTONS cfg)).

Lemma frame_matched_spec i :
  i ∈ matched f ↔ (i < n)%nat ∧ alice_bases f !!! i = bob_bases f !!! i.
Proof.
  unfold matched. rewrite list_elem_of_filter, elem_of_seq, (ok_alice_bases _ _ _ _ Hok).
  split; [intros [? ?] | intros [? ?]]; split; done || lia.
Qed.

Lemma frame_sifted_keys :
  alice_sifted_key f = (λ i, alice_bits f !!! i) <$> matched f ∧
  bob_sifted_key f = (λ i, bob_bits f !!! i) <$> matched f ∧
  sifted_length f = length (matched f).
Proof.
  pose proof (ok_alice_bits _ _ _ _ Hok) as Hbits.
  pose proof (ok_alice_bases _ _ _ _ Hok) as Hab.
  pose proof (ok_bob_bases _ _ _ _ Hok) as Hbb.
  pose proof (ok_bob_bits _ _ _ _ Hok) as Hbob.
  assert (Ha : alice_sifted_key f = (λ i, alice_bits f !!! i) <$> matched f).
  { rewrite (ok_alice_sifted _ _ _ _ Hok), (ok_sift_mask _ _ _ _ Hok).
    rewrite select_np_eq by lia. unfold matched. by rewrite Hbits, Hab. }
  split_and!; [done | |].
  - rewrite (ok_bob_sifted _ _ _ _ Hok), (ok_sift_mask _ _ _ _ Hok).
    rewrite select_np_eq by lia. unfold matched. by rewrite Hbob, Hab.
  - by rewrite (ok_sifted_length _ _ _ _ Hok), Ha, length_fmap.
Qed.

Lemma frame_mismatched_length : (length (mismatched f) + sifted_length f = n)%nat.
Proof.
  destruct frame_sifted_keys as (_ & _ & ->). unfold mismatched, matched.
  pose proof (length_filter_complement
                (λ i, alice_bases f !!! i = bob_bases f !!! i)
                (seq 0 (length (alice_bases f)))) as H.
  rewrite length_seq, (ok_alice_bases _ _ _ _ Hok) in H.
  rewrite (ok_alice_bases _ _ _ _ Hok). lia.
Qed.

Lemma frame_received_length : length (received_bits f) = n.
Proof.
  destruct (ok_draws _ _ _ _ Hok) as (eds & cds & _ & Heve & _).
  unfold eve_ok in Heve. destruct (eve f) as [e|].
  - destruct Heve as (r & _ & Heb & Hr & _ & Him & Hem & ->).
    rewrite length_flip_where; [apply (ok_alice_bits _ _ _ _ Hok)|].
    rewrite Hem, Him. unfold np_and, np_lt, np_ne.
    rewrite !length_zip_with, length_fmap.
    rewrite (ok_alice_bases _ _ _ _ Hok), (ok_alice_bits _ _ _ _ Hok). lia.
  - destruct Heve as [_ ->]. apply (ok_alice_bits _ _ _ _ Hok).
Qed.

Lemma frame_received_lookup i :
  (i < n)%nat →
  received_bits f !!! i =
    if disturbed f i then 1 - alice_bits f !!! i else alice_bits f !!! i.
Proof.
  intros Hi. unfold disturbed.
  destruct (ok_draws _ _ _ _ Hok) as (eds & cds & _ & Heve & _).
  unfold eve_ok in Heve. destruct (eve f) as [e|].
  - destruct Heve as (r & _ & Heb & Hr & _ & Him & Hem & Hrb).
    rewrite Hrb. apply lookup_total_flip_where.
    + rewrite Hem, Him. unfold np_and, np_lt, np_ne.
      rewrite !length_zip_with, length_fmap.
      rewrite (ok_alice_bases _ _ _ _ Hok). lia.
    + by rewrite (ok_alice_bits _ _ _ _ Hok).
  - by destruct Heve as [_ ->].
Qed.

Lemma frame_bob_matched i :
  (i < n)%nat → alice_bases f !!! i = bob_bases f !!! i →
  bob_bits f !!! i = received_bits f !!! i.
Proof.
  intros Hi Heq. rewrite !list_lookup_total_alt. f_equal.
  apply (ok_bob_match _ _ _ _ Hok). rewrite (ok_match_mask _ _ _ _ Hok).
  apply lookup_np_eq_true; [| |done].
  - by rewrite (ok_alice_bases _ _ _ _ Hok).
  - by rewrite (ok_bob_bases _ _ _ _ Hok).
Qed.

(** At a sifted index, the two keys hold Alice's bit and what Bob read
    from the received stream at the same photon. *)
Lemma frame_sifted_lookup j :
  (j < sifted_length f)%nat →
  (matched f !!! j < n)%nat ∧
  alice_sifted_key f !!! j = alice_bits f !!! (matched f !!! j) ∧
  bob_sifted_key f !!! j =
    (if disturbed f (matched f !!! j) then 1 - alice_bits f !!! (matched f !!! j)
     else alice_bits f !!! (matched f !!! j)).
Proof.
  intros Hj. destruct frame_sifted_keys as (Ha & Hb & Hsl). rewrite Hsl in Hj.
  assert (Hin : matched f !!! j ∈ matched f).
  { apply list_elem_of_lookup_total_2. done. }
  apply frame_matched_spec in Hin as [Hp Heq].
  split; [done|]. split.
  - rewrite Ha. by rewrite lookup_total_fmap_positions.
  - rewrite Hb. rewrite lookup_total_fmap_positions by done.
    rewrite frame_bob_matched by done. by apply frame_received_lookup.
Qed.

Lemma frame_bits :
  Forall is_bit (received_bits f) ∧ Forall is_bit (bob_bits f) ∧
  Forall is_bit (alice_sifted_key f) ∧ Forall is_bit (bob_sifted_key f).
Proof.
  pose proof (ok_alice_bits_bit _ _ _ _ Hok) as Hbit.
  pose proof (ok_alice_bits _ _ _ _ Hok) as Hbits.
  assert (Hrb : Forall is_bit (received_bits f)).
  { apply (Forall_lookup_total_2 is_bit). intros i Hi. rewrite frame_received_length in Hi.
    rewrite frame_received_lookup by done.
    assert (Ha : is_bit (alice_bits f !!! i)) by (apply Forall_lookup_total_1; [done | lia]).
    unfold is_bit in *. destruct (disturbed f i); lia. }
  assert (Hbob : Forall is_bit (bob_bits f)).
  { apply (Forall_lookup_total_2 is_bit). intros i Hi. rewrite (ok_bob_bits _ _ _ _ Hok) in Hi.
    destruct (decide (alice_bases f !!! i = bob_bases f !!! i)) as [Heq|Hne].
    - rewrite frame_bob_matched by done.
      apply Forall_lookup_total_1; [done | by rewrite frame_received_length].
    - pose proof (ok_bob_noise _ _ _ _ Hok) as Hnoise.
      rewrite (ok_match_mask _ _ _ _ Hok) in Hnoise.
      rewrite select_np_not_eq in Hnoise.
      + rewrite Forall_fmap, Forall_forall in Hnoise. apply (Hnoise i).
        rewrite list_elem_of_filter, elem_of_seq, (ok_bob_bits _ _ _ _ Hok).
        split; [done | lia].
      + by rewrite (ok_alice_bases _ _ _ _ Hok), (ok_bob_bits _ _ _ _ Hok).
      + by rewrite (ok_bob_bases _ _ _ _ Hok), (ok_bob_bits _ _ _ _ Hok). }
  split_and!; try done.
  - rewrite (ok_alice_sifted _ _ _ _ Hok). by apply Forall_select.
  - rewrite (ok_bob_sifted _ _ _ _ Hok). by apply Forall_select.
Qed.
End frames.

(** ** The draws of a call *)

(** X1.  A call makes its random requests in a fixed order: three bit
    arrays of the photon count, with an eavesdropper one more bit array
    and one array of floats, then one scalar bit for each position whose
    bases differ (in position order), and last, unless the sift is empty,
    one sample of [sifted_length // 4] indices out of [sifted_length]. *)
Theorem draws_of_a_call R cfg eavesdropper_present g :
  Lawful R → 0 ≤ NUM_PHOTONS cfg →
  ∃ f eve_draws,
    result (exec R (run_qkd_protocol_frame cfg eavesdropper_present) g) = inr f ∧
    draws (exec R (run_qkd_protocol cfg eavesdropper_present) g) =
      [DrawRandintVec (Z.to_nat (NUM_PHOTONS cfg)) (alice_bits f);
       DrawRandintVec (Z.to_nat (NUM_PHOTONS cfg)) (alice_bases f);
       DrawRandintVec (Z.to_nat (NUM_PHOTONS cfg)) (bob_bases f)]
      ++ eve_draws
      ++ (DrawRandint <$> ((λ i, bob_bits f !!! i) <$> mismatched f))
      ++ check_draw f ∧
    is_eve_draws cfg f eve_draws ∧
    (is_Some (eve f) ↔ eavesdropper_present = true) ∧
    (is_Some (check f) ↔ sifted_length f ≠ 0%nat) ∧
    (∀ c, check f = Some c → CHECK_SIZE c = (sifted_length f / 4)%nat) ∧
    length (mismatched f) = (Z.to_nat (NUM_PHOTONS cfg) - sifted_length f)%nat ∧
    length (draws (exec R (run_qkd_protocol cfg eavesdropper_present) g)) =
      (3 + (if eavesdropper_present then 2 else 0)
       + (Z.to_nat (NUM_PHOTONS cfg) - sifted_length f)
       + (if (sifted_length f =? 0)%nat then 0 else 1))%nat.
Proof.
  intros HR HN.
  destruct (run_returns R cfg eavesdropper_present g HR HN) as (f & Hf & _ & Hok & _).
  destruct (ok_draws _ _ _ _ Hok) as (eds & cds & Hds & Heve & Hcheck).
  pose proof (frame_mismatched_length _ _ _ _ Hok) as Hmis.
  pose proof (ok_eve_present _ _ _ _ Hok) as Hpres.
  assert (Hnoise : select (bob_bits f) (np_not (match_mask f)) =
                   (λ i, bob_bits f !!! i) <$> mismatched f).
  { rewrite (ok_match_mask _ _ _ _ Hok). unfold mismatched.
    rewrite select_np_not_eq.
    - by rewrite (ok_alice_bases _ _ _ _ Hok), (ok_bob_bits _ _ _ _ Hok).
    - by rewrite (ok_alice_bases _ _ _ _ Hok), (ok_bob_bits _ _ _ _ Hok).
    - by rewrite (ok_bob_bases _ _ _ _ Hok), (ok_bob_bits _ _ _ _ Hok). }
  assert (Hcd : cds = check_draw f ∧ (is_Some (check f) ↔ sifted_length f ≠ 0%nat) ∧
                length cds = if (sifted_length f =? 0)%nat then 0%nat else 1%nat).
  { unfold check_ok in Hcheck. unfold check_draw. destruct (check f) as [c|].
    - destruct Hcheck as (-> & Hsl & _). split; [done|]. split; [by split; eauto|].
      by destruct (Nat.eqb_spec (sifted_length f) 0).
    - destruct Hcheck as (-> & -> & _). split; [done|]. split; [|done].
      split; [by intros [? ?] | done]. }
  destruct Hcd as (Hcd & Hsome & Hclen).
  assert (Hed : is_eve_draws cfg f eds ∧
                length eds = if eavesdropper_present then 2%nat else 0%nat).
  { unfold eve_ok in Heve. unfold is_eve_draws. destruct (eve f) as [e|].
    - destruct Heve as (r & -> & _ & _ & _ & Him & _).
      split; [by exists r|].
      rewrite (proj1 Hpres) by by eexists. done.
    - destruct Heve as [-> _]. split; [done|].
      destruct eavesdropper_present; [|done].
      by destruct (proj2 Hpres eq_refl). }
  destruct Hed as [Hed Helen].
  exists f, eds. split; [done|]. split; [by rewrite Hds, Hnoise, Hcd|].
  split; [done|]. split; [done|]. split; [done|]. split.
  { intros c Hc. by destruct (frame_check_ok _ _ _ _ _ Hok Hc) as (_ & -> & _). }
  split; [lia|].
  rewrite Hds, Hnoise. simpl. rewrite !length_app, !length_fmap, Helen, Hclen. lia.
Qed.

Lemma draws_of_a_call_witness :
  Lawful Tape ∧ 0 ≤ NUM_PHOTONS demo_config ∧
  ∃ f,
    result (exec Tape (run_qkd_protocol_frame demo_config true) demo_tape_eve) = inr f ∧
    sifted_length f = 5%nat ∧ length (mismatched f) = 3%nat ∧
    length (draws (exec Tape (run_qkd_protocol demo_config true) demo_tape_eve)) = 9%nat.
Proof.
  split; [exact Tape_lawful|]. split; [vm_compute; discriminate|].
  destruct (draws_of_a_call Tape demo_config true demo_tape_eve Tape_lawful)
    as (f & eds & Hf & _ & _ & _ & _ & _ & Hmis & Hlen); [vm_compute; discriminate|].
  exists f. split; [done|].
  assert (Hsl : sifted_length f = 5%nat).
  { vm_compute in Hf. by injection Hf as <-. }
  rewrite Hsl in Hmis, Hlen. by split_and!.
Defined.

(** ** Where the two sifted keys differ *)

Lemma frame_sifted_differs cfg eavesdropper_present f ds j :
  frame_ok cfg eavesdropper_present f ds → (j < sifted_length f)%nat →
  alice_sifted_key f !!! j ≠ bob_sifted_key f !!! j ↔ disturbed f (matched f !!! j) = true.
Proof.
  intros Hok Hj.
  destruct (frame_sifted_lookup _ _ _ _ Hok j Hj) as (_ & -> & ->).
  destruct (disturbed f (matched f !!! j)); split; try done; lia.
Qed.

Lemma frame_errors_count cfg eavesdropper_present f ds c :
  frame_ok cfg eavesdropper_present f ds → check f = Some c →
  errors c =
    length (filter (λ j, disturbed f (matched f !!! j) = true) (check_indices c)).
Proof.
  intros Hok Hc.
  destruct (frame_check_ok _ _ _ _ _ Hok Hc)
    as (_ & _ & _ & _ & Hrg & Hac & Hbc & -> & _).
  rewrite (np_sum_ne_count _ _ _ _ _ Hac Hbc). f_equal.
  apply filter_ext_in. intros j Hj. rewrite Forall_forall in Hrg.
  by apply (frame_sifted_differs cfg eavesdropper_present f ds), Hrg.
Qed.

(** X2.  The two sifted keys differ at a sifted index exactly when the
    eavesdropper flipped the photon it comes from, so the error count of
    the check is the number of sampled indices whose photon she
    flipped. *)
Theorem sifted_errors_are_disturbances R cfg eavesdropper_present g :
  Lawful R → 0 ≤ NUM_PHOTONS cfg →
  ∃ f,
    result (exec R (run_qkd_protocol_frame cfg eavesdropper_present) g) = inr f ∧
    sifted_length f = length (matched f) ∧
    (∀ j, (j < sifted_length f)%nat →
       alice_sifted_key f !!! j ≠ bob_sifted_key f !!! j ↔
       disturbed f (matched f !!! j) = true) ∧
    (∀ c, check f = Some c →
       errors c =
         length (filter (λ j, disturbed f (matched f !!! j) = true) (check_indices c))).
Proof.
  intros HR HN.
  destruct (run_returns R cfg eavesdropper_present g HR HN) as (f & Hf & _ & Hok & _).
  exists f. split; [done|]. split; [apply (frame_sifted_keys _ _ _ _ Hok)|]. split.
  - intros j Hj. by apply (frame_sifted_differs cfg eavesdropper_present f _ j Hok).
  - intros c Hc. by apply (frame_errors_count cfg eavesdropper_present f _ c Hok).
Qed.

Lemma sifted_errors_are_disturbances_witness :
  Lawful Tape ∧ 0 ≤ NUM_PHOTONS demo_config ∧
  ∃ f c,
    result (exec Tape (run_qkd_protocol_frame demo_config true) demo_tape_eve) = inr f ∧
    check f = Some c ∧ matched f = [0; 2; 3; 5; 6]%nat ∧
    disturbed f 0 = true ∧ alice_sifted_key f !!! 0%nat ≠ bob_sifted_key f !!! 0%nat ∧
    errors c = 1%nat ∧
    errors c =
      length (filter (λ j, disturbed f (matched f !!! j) = true) (check_indices c)).
Proof.
  split; [exact Tape_lawful|]. split; [vm_compute; discriminate|].
  destruct (sifted_errors_are_disturbances Tape demo_config true demo_tape_eve Tape_lawful)
    as (f & Hf & _ & Hdiff & Herr); [vm_compute; discriminate|].
  vm_compute in Hf. injection Hf as <-.
  eexists _, _. split; [reflexivity|]. split; [reflexivity|].
  split; [reflexivity|]. split; [reflexivity|]. split.
  - apply Hdiff; [vm_compute; lia | reflexivity].
  - split; [reflexivity | exact (Herr _ eq_refl)].
Defined.

(** ** Bits and lengths *)

(** X3.  Every array of a call holds bits only: the received stream and
    Bob's measured bits have the photon count as length, and the two
    sifted keys have the same length, the number of matched-basis
    positions. *)
Theorem streams_are_bit_arrays R cfg eavesdropper_present g :
  Lawful R → 0 ≤ NUM_PHOTONS cfg →
  ∃ f,
    result (exec R (run_qkd_protocol_frame cfg eavesdropper_present) g) = inr f ∧
    length (received_bits f) = Z.to_nat (NUM_PHOTONS cfg) ∧
    length (bob_bits f) = Z.to_nat (NUM_PHOTONS cfg) ∧
    length (alice_sifted_key f) = length (matched f) ∧
    length (bob_sifted_key f) = length (matched f) ∧
    Forall is_bit (alice_bits f) ∧ Forall is_bit (received_bits f) ∧
    Forall is_bit (bob_bits f) ∧
    Forall is_bit (alice_sifted_key f) ∧ Forall is_bit (bob_sifted_key f).
Proof.
  intros HR HN.
  destruct (run_returns R cfg eavesdropper_present g HR HN) as (f & Hf & _ & Hok & _).
  destruct (frame_sifted_keys _ _ _ _ Hok) as (Ha & Hb & _).
  destruct (frame_bits _ _ _ _ Hok) as (? & ? & ? & ?).
  exists f. split_and!; try done.
  - apply (frame_received_length _ _ _ _ Hok).
  - apply (ok_bob_bits _ _ _ _ Hok).
  - by rewrite Ha, length_fmap.
  - by rewrite Hb, length_fmap.
  - apply (ok_alice_bits_bit _ _ _ _ Hok).
Qed.

Lemma streams_are_bit_arrays_witness :
  Lawful Tape ∧ 0 ≤ NUM_PHOTONS demo_config ∧
  ∃ f,
    result (exec Tape (run_qkd_protocol_frame demo_config true) demo_tape_eve) = inr f ∧
    length (bob_bits f) = 8%nat ∧ Forall is_bit (bob_bits f) ∧
    Forall is_bit (received_bits f).
Proof.
  split; [exact Tape_lawful|]. split; [vm_compute; discriminate|].
  destruct (streams_are_bit_arrays Tape demo_config true demo_tape_eve Tape_lawful)
    as (f & Hf & _ & Hlen & _ & _ & _ & Hrb & Hbob & _); [vm_compute; discriminate|].
  exists f. by split_and!.
Defined.

(** X4.  A returned key is never empty: it holds bits only, has
    [sifted_length - sifted_length // 4] of them, which is at least three
    quarters of the sifted key and at most the photon count. *)
Theorem returned_key_shape R cfg eavesdropper_present g :
  Lawful R → 0 ≤ NUM_PHOTONS cfg →
  ∃ f,
    result (exec R (run_qkd_protocol_frame cfg eavesdropper_present) g) = inr f ∧
    result (exec R (run_qkd_protocol cfg eavesdropper_present) g) = inr (returned f) ∧
    ∀ key, (returned f).1 = Some key →
      key ≠ [] ∧ Forall is_bit key ∧
      length key = (sifted_length f - sifted_length f / 4)%nat ∧
      (3 * sifted_length f ≤ 4 * length key)%nat ∧
      (length key ≤ Z.to_nat (NUM_PHOTONS cfg))%nat.
Proof.
  intros HR HN.
  destruct (run_returns R cfg eavesdropper_present g HR HN) as (f & Hf & Hr & Hok & _).
  exists f. split; [done|]. split; [done|]. intros key Hkey.
  destruct (check f) as [c|] eqn:Hc.
  - destruct (frame_check_ok _ _ _ _ _ Hok Hc)
      as (Hsl & Hsize & Hlen & Hnd & Hrg & _ & _ & _ & _ & Hrk & Hret).
    assert (key = remaining_key c) as ->.
    { rewrite Hret in Hkey. unfold decide_key in Hkey.
      destruct (Qltb _ _); simpl in Hkey; congruence. }
    assert (Hklen : length (remaining_key c) = (sifted_length f - sifted_length f / 4)%nat).
    { rewrite Hrk. rewrite (ok_sifted_length _ _ _ _ Hok) at 1.
      rewrite select_not_isin, length_fmap, <- (ok_sifted_length _ _ _ _ Hok).
      rewrite length_filter_not_in by done. by rewrite Hlen, Hsize. }
    assert (Hdiv : (4 * (sifted_length f / 4) ≤ sifted_length f)%nat).
    { apply Nat.Div0.mul_div_le. }
    assert (Hn : (sifted_length f ≤ Z.to_nat (NUM_PHOTONS cfg))%nat).
    { rewrite (ok_sifted_length _ _ _ _ Hok), (ok_alice_sifted _ _ _ _ Hok).
      rewrite <- (ok_alice_bits _ _ _ _ Hok). apply length_select_le. }
    split_and!; try lia.
    + intros Hnil. apply (f_equal length) in Hnil. rewrite Hklen in Hnil.
      cbn [length] in Hnil. lia.
    + rewrite Hrk. apply Forall_select. apply (frame_bits _ _ _ _ Hok).
  - destruct (frame_check_none _ _ _ _ Hok) as [_ Hret].
    rewrite (Hret Hc) in Hkey. done.
Qed.

Lemma returned_key_shape_witness :
  Lawful Tape ∧ 0 ≤ NUM_PHOTONS demo_config ∧
  ∃ f key,
    result (exec Tape (run_qkd_protocol_frame demo_config false) demo_tape) = inr f ∧
    (returned f).1 = Some key ∧ sifted_length f = 5%nat ∧
    key ≠ [] ∧ Forall is_bit key ∧ length key = (sifted_length f - sifted_length f / 4)%nat.
Proof.
  split; [exact Tape_lawful|]. split; [vm_compute; discriminate|].
  destruct (returned_key_shape Tape demo_config false demo_tape Tape_lawful)
    as (f & Hf & _ & Hkey); [vm_compute; discriminate|].
  vm_compute in Hf. injection Hf as <-.
  eexists _, _. split; [reflexivity|]. split; [reflexivity|]. split; [reflexivity|].
  destruct (Hkey _ eq_refl) as (Hne & Hbits & Hlen & _). by split_and!.
Defined.

(** ** Sifted keys too short to be checked *)

Lemma fmap_lookup_total_seq {A} `{!Inhabited A} (l : list A) :
  (λ i, l !!! i) <$> seq 0 (length l) = l.
Proof.
  apply list_eq. intros i. rewrite list_lookup_fmap.
  destruct (decide (i < length l)%nat) as [Hi|Hi].
  - rewrite lookup_seq_lt by done. simpl. symmetry.
    by apply list_lookup_lookup_total_lt.
  - rewrite lookup_seq_ge by lia. simpl. symmetry. apply lookup_ge_None. lia.
Qed.

Lemma filter_all {A} (P : A → Prop) `{!∀ x, Decision (P x)} (l : list A) :
  Forall P l → filter P l = l.
Proof. induction 1 as [|x l Hx _ IH]; [done|]. by rewrite filter_cons_True, IH. Qed.

(** X5.  A sifted key of one, two or three bits is never checked: the
    sample is empty, the QBER is 0 and, when the threshold is not
    negative, the whole of Alice's sifted key is returned, whether or not
    an eavesdropper flipped its bits. *)
Theorem short_sift_is_returned_unchecked R cfg eavesdropper_present g :
  Lawful R → 0 ≤ NUM_PHOTONS cfg → (0 <= SECURITY_THRESHOLD cfg)%Q →
  ∃ f,
    result (exec R (run_qkd_protocol_frame cfg eavesdropper_present) g) = inr f ∧
    ((0 < sifted_length f < 4)%nat →
     ∃ c, check f = Some c ∧
          CHECK_SIZE c = 0%nat ∧ check_indices c = [] ∧ errors c = 0%nat ∧
          qber c = 0%Q ∧ remaining_key c = alice_sifted_key f ∧
          (returned f).1 = Some (alice_sifted_key f)).
Proof.
  intros HR HN Hthr.
  destruct (run_returns R cfg eavesdropper_present g HR HN) as (f & Hf & _ & Hok & _).
  exists f. split; [done|]. intros [Hlo Hhi].
  destruct (check f) as [c|] eqn:Hc.
  - destruct (frame_check_ok _ _ _ _ _ Hok Hc)
      as (_ & Hsize & Hlen & _ & _ & Hac & Hbc & Herr & Hq & Hrk & Hret).
    rewrite (Nat.div_small _ _ Hhi) in Hsize.
    rewrite Hsize in Hlen, Hq. apply nil_length_inv in Hlen.
    rewrite Hlen in Hac, Hbc, Hrk. simpl in Hac, Hbc, Hq.
    injection Hac as Hac. injection Hbc as Hbc.
    rewrite <- Hac, <- Hbc in Herr.
    assert (Hrem : remaining_key c = alice_sifted_key f).
    { rewrite Hrk. rewrite (ok_sifted_length _ _ _ _ Hok).
      rewrite select_not_isin, filter_all; [apply fmap_lookup_total_seq|].
      apply Forall_forall. intros i _. apply not_elem_of_nil. }
    exists c. split_and!; try done.
    rewrite Hret, Hq, Hrem. unfold decide_key.
    destruct (Qltb (SECURITY_THRESHOLD cfg) 0) eqn:E; [|done].
    apply Qltb_lt in E. by apply Qlt_not_le in E.
  - destruct (frame_check_none _ _ _ _ Hok) as [[H0 _] _]. specialize (H0 Hc). lia.
Qed.

Lemma short_sift_is_returned_unchecked_witness :
  Lawful Tape ∧ 0 ≤ NUM_PHOTONS demo_config ∧ (0 <= SECURITY_THRESHOLD demo_config)%Q ∧
  ∃ f,
    result (exec Tape (run_qkd_protocol_frame demo_config true) demo_tape_short) = inr f ∧
    sifted_length f = 1%nat ∧
    alice_sifted_key f = [1] ∧ bob_sifted_key f = [0] ∧
    (returned f).1 = Some (alice_sifted_key f).
Proof.
  split; [exact Tape_lawful|]. split; [vm_compute; discriminate|].
  split; [vm_compute; discriminate|].
  destruct (short_sift_is_returned_unchecked Tape demo_config true demo_tape_short Tape_lawful)
    as (f & Hf & Hshort); [vm_compute; discriminate..|].
  exists f. split; [done|].
  assert (Hfacts : sifted_length f = 1%nat ∧ alice_sifted_key f = [1] ∧
                   bob_sifted_key f = [0]).
  { vm_compute in Hf. by injection Hf as <-. }
  destruct Hfacts as (Hsl & Ha & Hb).
  destruct Hshort as (c & _ & _ & _ & _ & _ & _ & Hret); [lia|].
  by split_and!.
Defined.

(** ** The acceptance test on integers *)




(** ** An eavesdropper who flips nothing *)

Lemma list_eq_lookup_total {A} `{!Inhabited A} (l1 l2 : list A) :
  length l1 = length l2 → (∀ i, (i < length l1)%nat → l1 !!! i = l2 !!! i) → l1 = l2.
Proof.
  intros Hlen Hpt. apply list_eq. intros i.
  destruct (decide (i < length l1)%nat) as [Hi|Hi].
  - rewrite (list_lookup_lookup_total_lt l1 i Hi).
    rewrite (list_lookup_lookup_total_lt l2 i) by lia. f_equal. by apply Hpt.
  - rewrite (proj2 (lookup_ge_None l1 i)) by lia.
    by rewrite (proj2 (lookup_ge_None l2 i)) by lia.
Qed.

Lemma frame_undisturbed cfg eavesdropper_present f ds :
  frame_ok cfg eavesdropper_present f ds →
  (∀ i, (i < Z.to_nat (NUM_PHOTONS cfg))%nat → disturbed f i = false) →
  received_bits f = alice_bits f ∧
  bob_sifted_key f = alice_sifted_key f ∧
  ∀ c, check f = Some c → errors c = 0%nat ∧ (qber c == 0)%Q.
Proof.
  intros Hok Hund.
  destruct (frame_sifted_keys _ _ _ _ Hok) as (Ha & Hb & Hsl).
  split_and!.
  - apply list_eq_lookup_total.
    + by rewrite (frame_received_length _ _ _ _ Hok), (ok_alice_bits _ _ _ _ Hok).
    + intros i Hi. rewrite (frame_received_length _ _ _ _ Hok) in Hi.
      by rewrite (frame_received_lookup _ _ _ _ Hok i Hi), (Hund i Hi).
  - apply list_eq_lookup_total.
    + by rewrite Ha, Hb, !length_fmap.
    + intros j Hj. rewrite Hb, length_fmap, <- Hsl in Hj.
      destruct (frame_sifted_lookup _ _ _ _ Hok j Hj) as (Hp & -> & ->).
      by rewrite (Hund _ Hp).
  - intros c Hc.
    assert (Herr : errors c = 0%nat).
    { rewrite (frame_errors_count _ _ _ _ _ Hok Hc), filter_none; [done|].
      destruct (frame_check_ok _ _ _ _ _ Hok Hc) as (_ & _ & _ & _ & Hrg & _).
      eapply Forall_impl; [exact Hrg|]. intros j Hj. simpl in Hj.
      destruct (frame_sifted_lookup _ _ _ _ Hok j Hj) as (Hp & _).
      by rewrite (Hund _ Hp). }
    split; [done|].
    destruct (frame_check_ok _ _ _ _ _ Hok Hc) as (_ & _ & _ & _ & _ & _ & _ & _ & Hq & _).
    rewrite Hq, Herr. destruct (0 <? CHECK_SIZE c)%nat; [apply ratio_zero | done].
Qed.

(** X7.  With an interception probability of 0 or less the eavesdropper
    draws her bases and her floats but flips nothing: the received stream
    is Alice's, the sifted keys are equal, the error count is 0 and, for a
    threshold that is not negative, the key is returned whenever the sift
    is not empty. *)
Theorem idle_eavesdropper_is_harmless R cfg g :
  Lawful R → 0 ≤ NUM_PHOTONS cfg →
  (EAVESDROP_PROB cfg <= 0)%Q → (0 <= SECURITY_THRESHOLD cfg)%Q →
  ∃ f,
    result (exec R (run_qkd_protocol_frame cfg true) g) = inr f ∧
    is_Some (eve f) ∧
    received_bits f = alice_bits f ∧
    bob_sifted_key f = alice_sifted_key f ∧
    ∀ c, check f = Some c →
      errors c = 0%nat ∧ (qber c == 0)%Q ∧ (returned f).1 = Some (remaining_key c).
Proof.
  intros HR HN Hp Hthr.
  destruct (run_returns R cfg true g HR HN) as (f & Hf & _ & Hok & _).
  exists f. split; [done|].
  assert (Heve : is_Some (eve f)) by by apply (ok_eve_present _ _ _ _ Hok).
  split; [done|].
  assert (Hund : ∀ i, (i < Z.to_nat (NUM_PHOTONS cfg))%nat → disturbed f i = false).
  { intros i Hi. unfold disturbed.
    destruct (ok_draws _ _ _ _ Hok) as (eds & cds & _ & Hev & _).
    unfold eve_ok in Hev. destruct (eve f) as [e|]; [|done].
    destruct Hev as (r & _ & Heb & Hr & Hrange & Him & Hem & _).
    assert (Hlim : length (intercept_mask e) = Z.to_nat (NUM_PHOTONS cfg)).
    { rewrite Him. unfold np_lt. by rewrite length_fmap. }
    rewrite Hem, lookup_total_np_and.
    - assert (Hfalse : intercept_mask e !!! i = false); [|by rewrite Hfalse].
      apply (Forall_lookup_total_1 (λ m, m = false)); [|lia].
      rewrite Him. by apply np_lt_all_false.
    - lia.
    - unfold np_ne. rewrite length_zip_with, (ok_alice_bases _ _ _ _ Hok). lia. }
  destruct (frame_undisturbed _ _ _ _ Hok Hund) as (Hrb & Hsift & Hcheck).
  split; [done|]. split; [done|]. intros c Hc.
  destruct (Hcheck c Hc) as [Herr Hq]. split; [done|]. split; [done|].
  destruct (frame_check_ok _ _ _ _ _ Hok Hc) as (_ & _ & _ & _ & _ & _ & _ & _ & _ & _ & ->).
  unfold decide_key.
  destruct (Qltb (SECURITY_THRESHOLD cfg) (qber c)) eqn:E; [|done].
  apply Qltb_lt in E. rewrite Hq in E. by apply Qlt_not_le in E.
Qed.

Lemma idle_eavesdropper_is_harmless_witness :
  Lawful Tape ∧ 0 ≤ NUM_PHOTONS idle_eve_config ∧
  (EAVESDROP_PROB idle_eve_config <= 0)%Q ∧ (0 <= SECURITY_THRESHOLD idle_eve_config)%Q ∧
  ∃ f c,
    result (exec Tape (run_qkd_protocol_frame idle_eve_config true) demo_tape_eve) = inr f ∧
    check f = Some c ∧ received_bits f = alice_bits f ∧ errors c = 0%nat ∧
    (returned f).1 = Some (remaining_key c).
Proof.
  split; [exact Tape_lawful|]. split; [vm_compute; discriminate|].
  split; [vm_compute; discriminate|]. split; [vm_compute; discriminate|].
  destruct (idle_eavesdropper_is_harmless Tape idle_eve_config demo_tape_eve Tape_lawful)
    as (f & Hf & _ & Hrb & _ & Hcheck); [vm_compute; discriminate..|].
  vm_compute in Hf. injection Hf as <-.
  eexists _, _. split; [reflexivity|]. split; [reflexivity|].
  destruct (Hcheck _ eq_refl) as (Herr & _ & Hret). by split_and!.
Defined.

(** ** The driver *)

(** X8.  The driver draws the case with [random.choice], runs one
    simulation with it and prints five lines: the title, the case, a rule
    of fifty dashes, the justification the simulation returned and the
    rule again.  With a negative photon count it stops with the
    simulation's [ValueError] after the first two lines. *)
Theorem main_prints_the_justification R cfg g :
  Lawful R →
  (0 ≤ NUM_PHOTONS cfg →
   ∃ f,
     result (exec R (run_qkd_protocol_frame cfg (src_py_choice R g).1)
               (src_py_choice R g).2) = inr f ∧
     result (exec R (main cfg) g) = inr () ∧
     stdout (exec R (main cfg) g) =
       ["## 🔒 QKD Eavesdropper Detection Simulation (Random Case)";
        "--- Running Simulation: "
          +:+ (if (src_py_choice R g).1 then "*EAVESDROPPER PRESENT*"
               else "*NO EAVESDROPPER*") +:+ " ---";
        "--------------------------------------------------";
        (returned f).2;
        "--------------------------------------------------"] ∧
     draws (exec R (main cfg) g) =
       DrawPyChoice (src_py_choice R g).1
       :: draws (exec R (run_qkd_protocol cfg (src_py_choice R g).1)
                   (src_py_choice R g).2)) ∧
  (NUM_PHOTONS cfg < 0 →
   result (exec R (main cfg) g) = inl ValueError ∧
   stdout (exec R (main cfg) g) =
     ["## 🔒 QKD Eavesdropper Detection Simulation (Random Case)";
      "--- Running Simulation: "
        +:+ (if (src_py_choice R g).1 then "*EAVESDROPPER PRESENT*"
             else "*NO EAVESDROPPER*") +:+ " ---"] ∧
   draws (exec R (main cfg) g) = [DrawPyChoice (src_py_choice R g).1]).
Proof.
  intros HR. unfold main. simpl.
  destruct (src_py_choice R g) as [b g']. simpl.
  rewrite (exec_bind R (run_qkd_protocol cfg b)).
  split.
  - intros HN.
    destruct (run_returns R cfg b g' HR HN) as (f & Hf & Hr & _ & Hout).
    exists f. split; [done|].
    destruct (exec R (run_qkd_protocol cfg b) g') as [res g'' ds out].
    simpl in Hr, Hout. subst res out. unfold and_then. simpl.
    destruct (returned f) as [key justification]. simpl.
    rewrite app_nil_r. by split_and!.
  - intros HN.
    destruct (exec_negative_photons R cfg b g' HN) as [Hr Hd].
    pose proof (silent_stdout R (run_qkd_protocol cfg b) g'
                  (silent_run_qkd_protocol _ _)) as Hout.
    destruct (exec R (run_qkd_protocol cfg b) g') as [res g'' ds out].
    simpl in Hr, Hd, Hout. subst res ds out. by split_and!.
Qed.

Lemma main_prints_the_justification_witness :
  Lawful Tape ∧ 0 ≤ NUM_PHOTONS demo_config ∧
  result (exec Tape (main demo_config) (DrawPyChoice false :: demo_tape)) = inr () ∧
  stdout (exec Tape (main demo_config) (DrawPyChoice false :: demo_tape)) =
    ["## 🔒 QKD Eavesdropper Detection Simulation (Random Case)";
     "--- Running Simulation: *NO EAVESDROPPER* ---";
     "--------------------------------------------------";
     "✅ Key is SECURE (QBER: 0.00%). The low error rate confirms no intrusion, and the remaining key is successfully generated (1101...).";
     "--------------------------------------------------"].
Proof.
  split; [exact Tape_lawful|]. split; [vm_compute; discriminate|].
  destruct (main_prints_the_justification Tape demo_config (DrawPyChoice false :: demo_tape)
              Tape_lawful) as [Hrun _].
  destruct Hrun as (f & Hf & Hres & Hout & _); [vm_compute; discriminate|].
  split; [exact Hres|].
  rewrite Hout. vm_compute in Hf. injection Hf as <-. reflexivity.
Defined.

(** ** The verdict looks at the sample only *)

Lemma ratio_one (c : nat) :
  (0 < c)%nat → (inject_Z (Z.of_nat c) / inject_Z (Z.of_nat c) == 1)%Q.
Proof.
  intros Hc. apply Qmult_inv_r. unfold Qeq. simpl. lia.
Qed.

(** X9.  The verdict depends on the sampled indices alone.  If the
    eavesdropper flipped none of the sampled photons, the error count is
    0 and (for a threshold that is not negative) the key is returned,
    whatever she flipped elsewhere; if she flipped all of them, the sample
    not being empty, the QBER is 1 and (for a threshold below 1) the key
    is withheld. *)
Theorem verdict_depends_on_the_sample R cfg eavesdropper_present g :
  Lawful R → 0 ≤ NUM_PHOTONS cfg →
  ∃ f,
    result (exec R (run_qkd_protocol_frame cfg eavesdropper_present) g) = inr f ∧
    ∀ c, check f = Some c →
      ((∀ j, j ∈ check_indices c → disturbed f (matched f !!! j) = false) →
       (0 <= SECURITY_THRESHOLD cfg)%Q →
       errors c = 0%nat ∧ (returned f).1 = Some (remaining_key c)) ∧
      ((∀ j, j ∈ check_indices c → disturbed f (matched f !!! j) = true) →
       (0 < CHECK_SIZE c)%nat → (SECURITY_THRESHOLD cfg < 1)%Q →
       errors c = CHECK_SIZE c ∧ (qber c == 1)%Q ∧ (returned f).1 = None).
Proof.
  intros HR HN.
  destruct (run_returns R cfg eavesdropper_present g HR HN) as (f & Hf & _ & Hok & _).
  exists f. split; [done|]. intros c Hc.
  pose proof (frame_errors_count _ _ _ _ _ Hok Hc) as Herr.
  destruct (frame_check_ok _ _ _ _ _ Hok Hc)
    as (_ & _ & Hlen & _ & _ & _ & _ & _ & Hq & _ & Hret).
  split.
  - intros Hnone Hthr.
    assert (H0 : errors c = 0%nat).
    { rewrite Herr, filter_none; [done|]. apply Forall_forall. intros j Hj.
      by rewrite (Hnone j Hj). }
    split; [done|]. rewrite Hret. unfold decide_key.
    destruct (Qltb (SECURITY_THRESHOLD cfg) (qber c)) eqn:E; [|done].
    apply Qltb_lt in E. rewrite Hq, H0 in E.
    assert (Hz : ((if (0 <? CHECK_SIZE c)%nat
                   then inject_Z (Z.of_nat 0) / inject_Z (Z.of_nat (CHECK_SIZE c))
                   else 0) == 0)%Q).
    { destruct (0 <? CHECK_SIZE c)%nat; [apply ratio_zero | done]. }
    rewrite Hz in E. by apply Qlt_not_le in E.
  - intros Hall Hpos Hthr.
    assert (Hfull : errors c = CHECK_SIZE c).
    { rewrite Herr, filter_all; [done|]. apply Forall_forall. intros j Hj.
      by apply Hall. }
    assert (Hone : (qber c == 1)%Q).
    { rewrite Hq, Hfull. destruct (Nat.ltb_spec 0 (CHECK_SIZE c)); [|lia].
      by apply ratio_one. }
    split; [done|]. split; [done|]. rewrite Hret. unfold decide_key.
    destruct (Qltb (SECURITY_THRESHOLD cfg) (qber c)) eqn:E; [done|].
    assert (Hlt : (SECURITY_THRESHOLD cfg < qber c)%Q) by by rewrite Hone.
    apply Qltb_lt in Hlt. congruence.
Qed.

Lemma verdict_depends_on_the_sample_witness :
  Lawful Tape ∧ 0 ≤ NUM_PHOTONS demo_config ∧
  ∃ f c,
    result (exec Tape (run_qkd_protocol_frame demo_config true) demo_tape_eve_missed)
      = inr f ∧
    check f = Some c ∧ disturbed f 0 = true ∧ check_indices c = [2%nat] ∧
    errors c = 0%nat ∧ (returned f).1 = Some (remaining_key c).
Proof.
  split; [exact Tape_lawful|]. split; [vm_compute; discriminate|].
  destruct (verdict_depends_on_the_sample Tape demo_config true demo_tape_eve_missed
              Tape_lawful) as (f & Hf & Hverdict); [vm_compute; discriminate|].
  vm_compute in Hf. injection Hf as <-.
  eexists _, _. split; [reflexivity|]. split; [reflexivity|].
  split; [reflexivity|]. split; [reflexivity|].
  destruct (Hverdict _ eq_refl) as [Hmiss _].
  apply Hmiss; [|vm_compute; discriminate].
  intros j Hj. simpl in Hj. apply list_elem_of_singleton in Hj as ->. reflexivity.
Defined.

(** ** The preview of the key *)



